(** * Exam scheduler (Welsh-Powell): a shallow embedding of [app.py]

    The development follows the pure functions of [app.py],
    [welsh_powell], [build_conflicts_from_enrollments],
    [build_conflicts_from_csv_df] and [schedule_from_coloring], the
    dictionary lookups of [draw_conflict_graph], and the session state of
    the manual tab.  Random enrollments, plotting and file export are left
    out.

    Data model.
    - An exam identifier is a Python [str]; it is a [string] here (its UTF-8
      bytes, whose byte-wise lexicographic order is the code point order
      Python compares by).  On a [str] the call [str(x)] of the sort key is
      the identity.
    - A Python [dict] is a [gmap], a Python [set] a [gset].  Neither records
      the order in which Python enumerates it, so every loop of the source
      that walks a dict or a set is written over an explicit list, the
      enumeration, and the functions named after the source instantiate it
      with the canonical one ([map_to_list], [elements]).
    - A Python [int] is a [Z]. *)

From stdpp Require Import gmap strings list fin_maps sorting pretty.

Local Open Scope Z_scope.

(* stdpp's solvers clear hypotheses they have already consumed. *)
#[local] Set Warnings "-clear-no-such-hyp".

(** ** Adjacency maps *)

(** The set stored under [v]; the empty set when [v] is no key.  The source
    reads [full[x]] only for keys of [full] (lines 22 and 32 walk
    [full.keys()]), and the statements below read an input [adj] this way,
    where a vertex without an entry has no listed neighbours. *)
Definition neighbours (adj : gmap string (gset string)) (v : string) : gset string :=
  default ∅ (adj !! v).

(** [m[a].add(b)]: the set stored under [a] is updated in place.  On a
    missing key Python raises [KeyError]; that case is kept apart in
    [set_add_checked] and shown not to arise. *)
Definition set_add (a b : string) (m : gmap string (gset string)) : gmap string (gset string) :=
  alter (λ s, s ∪ {[b]}) a m.

(** [m[a].add(b); m[b].add(a)] *)
Definition add_edge (a b : string) (m : gmap string (gset string)) : gmap string (gset string) :=
  set_add b a (set_add a b m).

(** The same two statements with the subscripts checked: [None] stands for
    the [KeyError] of a missing key. *)
Definition set_add_checked (a b : string) (m : gmap string (gset string))
  : option (gmap string (gset string)) :=
  match m !! a with
  | Some _ => Some (set_add a b m)
  | None => None
  end.

Definition add_edge_checked (a b : string) (m : gmap string (gset string))
  : option (gmap string (gset string)) :=
  set_add_checked a b m ≫= set_add_checked b a.

(** A [for] loop whose body may raise: the first exception ends it. *)
Fixpoint foldl_checked {A B} (f : A → B → option A) (a : A) (l : list B) : option A :=
  match l with
  | [] => Some a
  | b :: l => f a b ≫= λ a', foldl_checked f a' l
  end.

(** [{v: set() for v in vs}] *)
Definition empty_sets (vs : list string) : gmap string (gset string) :=
  foldl (λ m v, <[v := ∅]> m) ∅ vs.

(** The items of a dict of sets in the canonical enumeration: both the
    entries and each neighbour set are listed. *)
Definition adj_items (adj : gmap string (gset string)) : list (string * list string) :=
  (λ p, (p.1, elements p.2)) <$> map_to_list adj.

(** ** [welsh_powell] *)

(** Lines 11-14:
<<
    vertices = set(adj.keys())
    for v, neigh in adj.items():
        for u in neigh:
            vertices.add(u)
>> *)
Definition collect_vertices (items : list (string * list string)) : gset string :=
  foldl (λ vs p, foldl (λ vs u, vs ∪ {[u]}) vs p.2) (list_to_set items.*1) items.

(** Lines 16-20:
<<
    full = {v: set() for v in vertices}
    for v, neigh in adj.items():
        for u in neigh:
            full[v].add(u)
            full[u].add(v)
>>
    [venum] is the order in which the set [vertices] is walked. *)
Definition build_full (items : list (string * list string)) (venum : list string)
  : gmap string (gset string) :=
  foldl (λ full p, foldl (λ full u, add_edge p.1 u full) full p.2)
        (empty_sets venum) items.

(** Lines 16-20 with the subscripts of lines 19 and 20 checked. *)
Definition build_full_checked (items : list (string * list string))
    (venum : list string) : option (gmap string (gset string)) :=
  foldl_checked
    (λ full p, foldl_checked (λ full u, add_edge_checked p.1 u full) full p.2)
    (empty_sets venum) items.

(** [len(full[x])] *)
Definition degree (full : gmap string (gset string)) (x : string) : Z :=
  Z.of_nat (size (neighbours full x)).

(** The sort key of line 22, [(-len(full[x]), str(x))], and the order of
    Python tuples on it: first component first, then the second. *)
Definition order_key (full : gmap string (gset string)) (x : string) : Z * string :=
  (- degree full x, x).

Definition key_le (k1 k2 : Z * string) : Prop :=
  k1.1 < k2.1 ∨ (k1.1 = k2.1 ∧ String.le k1.2 k2.2).

Definition order_le (full : gmap string (gset string)) (x y : string) : Prop :=
  key_le (order_key full x) (order_key full y).

Global Instance key_le_dec : RelDecision key_le.
Proof. intros k1 k2. unfold key_le. apply _. Defined.

Global Instance order_le_dec full : RelDecision (order_le full).
Proof. intros x y. unfold order_le. apply _. Defined.

(** Line 22: [order = sorted(full.keys(), key=...)].  [sorted] is a stable
    merge sort; [kenum] is the order in which [full.keys()] is walked. *)
Definition vertex_order (full : gmap string (gset string)) (kenum : list string) : list string :=
  merge_sort (order_le full) kenum.

(** Line 32:
<<
    all((nbr not in color or color[nbr] != current_color) for nbr in full[u])
>> *)
Definition colour_free (full : gmap string (gset string)) (color : gmap string Z)
    (current_color : Z) (u : string) : bool :=
  forallb (λ nbr, match color !! nbr with
                  | None => true
                  | Some c => bool_decide (c ≠ current_color)
                  end)
          (elements (neighbours full u)).

(** Lines 31-34, the body of the inner loop. *)
Definition inner_step (full : gmap string (gset string)) (current_color : Z) (v : string)
    (color : gmap string Z) (u : string) : gmap string Z :=
  match color !! u with
  | Some _ => color
  | None =>
      if colour_free full color current_color u
      then (if decide (v ≠ u) then <[u := current_color]> color else color)
      else color
  end.

(** Lines 28-35, the body of the outer loop, on the pair
    [(color, current_color)]. *)
Definition outer_step (full : gmap string (gset string)) (order : list string)
    (st : gmap string Z * Z) (v : string) : gmap string Z * Z :=
  match st.1 !! v with
  | Some _ => st
  | None => (foldl (inner_step full st.2 v) (<[v := st.2]> st.1) order, st.2 + 1)
  end.

(** Lines 24-37. *)
Definition colour_loop (full : gmap string (gset string)) (order : list string)
  : gmap string Z * Z :=
  foldl (outer_step full order) (∅, 1) order.

(** [welsh_powell] with Python's enumerations made explicit: [items] for
    [adj.items()] together with the walk of each [neigh], and [venum] for
    the walk of the set [vertices].  A dict keeps its keys in insertion
    order, so [full.keys()] is walked in the order [venum] too. *)
Definition welsh_powell_enum (items : list (string * list string))
    (venum : list string) : gmap string Z :=
  let full := build_full items venum in
  let order := vertex_order full venum in
  (colour_loop full order).1.

(** The same run with the subscripts of lines 19 and 20 checked. *)
Definition welsh_powell_enum_checked (items : list (string * list string))
    (venum : list string) : option (gmap string Z) :=
  full ← build_full_checked items venum;
  Some (colour_loop full (vertex_order full venum)).1.

(** The vertex set, the symmetrised adjacency [full] and the list [order]
    that [welsh_powell] computes from a dict of sets. *)
Definition vertices (adj : gmap string (gset string)) : gset string :=
  collect_vertices (adj_items adj).

Definition full_of (adj : gmap string (gset string)) : gmap string (gset string) :=
  build_full (adj_items adj) (elements (vertices adj)).

Definition order_of (adj : gmap string (gset string)) : list string :=
  vertex_order (full_of adj) (elements (vertices adj)).

Definition welsh_powell (adj : gmap string (gset string)) : gmap string Z :=
  welsh_powell_enum (adj_items adj) (elements (vertices adj)).

Definition welsh_powell_checked (adj : gmap string (gset string))
  : option (gmap string Z) :=
  welsh_powell_enum_checked (adj_items adj) (elements (vertices adj)).

(** * [build_conflicts_from_enrollments] *)

(** Line 50: [{e for courses in enrollments.values() for e in courses}] *)
Definition enrolled_exams (items : list (string * list string)) : gset string :=
  list_to_set (mjoin items.*2).

(** Lines 54-58, for one student:
<<
    for i in range(len(courses)):
        for j in range(i + 1, len(courses)):
            a, b = courses[i], courses[j]
            conflicts[a].add(b)
            conflicts[b].add(a)
>>
    Both indices stay below [len(courses)], so neither subscript can raise
    [IndexError]. *)
Definition pair_step (courses : list string) (i : nat)
    (conflicts : gmap string (gset string)) (j : nat) : gmap string (gset string) :=
  match courses !! i, courses !! j with
  | Some a, Some b => add_edge a b conflicts
  | _, _ => conflicts
  end.

Definition pair_loop (courses : list string) (conflicts : gmap string (gset string))
  : gmap string (gset string) :=
  foldl (λ m i, foldl (pair_step courses i) m
                      (seq (S i) (length courses - S i)))
        conflicts (seq 0 (length courses)).

(** Lines 50-60, with [items] the walk of [enrollments.items()] (the walk
    of [enrollments.values()] follows the same order) and [eenum] the walk
    of the set of line 50, which [sorted] then puts in ascending order. *)
Definition build_conflicts_enum (items : list (string * list string))
    (eenum : list string) : gmap string (gset string) :=
  let exams := merge_sort String.le eenum in
  foldl (λ m p, pair_loop p.2 m) (empty_sets exams) items.

Definition build_conflicts_from_enrollments (enrollments : gmap string (list string))
  : gmap string (gset string) :=
  build_conflicts_enum (map_to_list enrollments)
                       (elements (enrolled_exams (map_to_list enrollments))).

(** Lines 50-60 with the subscripts of lines 56-58 checked: [None] stands
    for an [IndexError] or a [KeyError]. *)
Definition pair_step_checked (courses : list string) (i : nat)
    (conflicts : gmap string (gset string)) (j : nat)
  : option (gmap string (gset string)) :=
  a ← courses !! i; b ← courses !! j; add_edge_checked a b conflicts.

Definition pair_loop_checked (courses : list string)
    (conflicts : gmap string (gset string)) : option (gmap string (gset string)) :=
  foldl_checked (λ m i, foldl_checked (pair_step_checked courses i) m
                                      (seq (S i) (length courses - S i)))
                conflicts (seq 0 (length courses)).

Definition build_conflicts_checked (enrollments : gmap string (list string))
  : option (gmap string (gset string)) :=
  let items := map_to_list enrollments in
  let exams := merge_sort String.le (elements (enrolled_exams items)) in
  foldl_checked (λ m p, pair_loop_checked p.2 m) (empty_sets exams) items.

(** * [build_conflicts_from_csv_df] *)

(** One line of the uploaded table, which has the columns [student_id] and
    [exam]; a missing cell (NaN) is [None].  Identifiers are read as
    strings. *)
Record csv_row := {
  student_id : option string;
  exam : option string
}.

Global Instance csv_row_eq_dec : EqDecision csv_row.
Proof. solve_decision. Defined.

(** Line 66, [df.dropna(subset=["student_id", "exam"])]: the rows with both
    cells present, read as pairs. *)
Definition dropna (df : list csv_row) : list (string * string) :=
  omap (λ r, sid ← student_id r; e ← exam r; Some (sid, e)) df.

(** [Series.unique()]: the distinct values, in order of first appearance. *)
Fixpoint unique (l : list string) : list string :=
  match l with
  | [] => []
  | x :: l => x :: filter (λ y, y ≠ x) (unique l)
  end.

(** The keys that [df.groupby("student_id")] walks: the distinct
    identifiers, in ascending order. *)
Definition groupby_keys (rows : list (string * string)) : list string :=
  merge_sort String.le (elements (list_to_set (C := gset string) rows.*1)).

(** [group["exam"]] for the group of [sid]: its exams, in row order. *)
Definition group_exams (rows : list (string * string)) (sid : string) : list string :=
  (filter (λ p, p.1 = sid) rows).*2.

(** Lines 67-69:
<<
    enroll = {}
    for sid, group in df.groupby("student_id"):
        enroll[sid] = list(group["exam"].unique())
>> *)
Definition csv_enrollments (rows : list (string * string)) : gmap string (list string) :=
  foldl (λ enroll sid, <[sid := unique (group_exams rows sid)]> enroll)
        ∅ (groupby_keys rows).

(** Lines 63-71; [df.empty] holds of the table without rows. *)
Definition build_conflicts_from_csv_df (df : list csv_row) : gmap string (gset string) :=
  match df with
  | [] => ∅
  | _ => build_conflicts_from_enrollments (csv_enrollments (dropna df))
  end.

(** * [draw_conflict_graph]: nodes, colours and labels *)

(** Lines 75-80, the nodes of [G]: the keys, then both ends of every edge.
<<
    for n in conflicts:
        G.add_node(n)
    for a, neigh in conflicts.items():
        for b in neigh:
            G.add_edge(a, b)
>> *)
Definition graph_nodes (items : list (string * list string)) : gset string :=
  foldl (λ G p, foldl (λ G b, G ∪ {[p.1]} ∪ {[b]}) G p.2)
        (foldl (λ G n, G ∪ {[n]}) ∅ items.*1) items.

(** Line 89, [max(coloring.values())]; [None] stands for the [ValueError]
    of an empty dict, which the test [if coloring:] of line 88 keeps out. *)
Definition max_colour (coloring : gmap string Z) : option Z :=
  match (map_to_list coloring).*2 with
  | [] => None
  | c :: cs => Some (foldl Z.max c cs)
  end.

(** Line 91, the arguments [coloring[n] - 1] handed to the palette, one per
    node; [None] stands for the [KeyError] of a node without a colour. *)
Definition palette_indices (nodes : list string) (coloring : gmap string Z)
  : option (list Z) :=
  mapM (λ n, c ← coloring !! n; Some (c - 1)) nodes.

(** Line 94, the label of one node: its name, a line feed (code 10) and
    its colour as [(C<colour>)]. *)
Definition node_label (coloring : gmap string Z) (n : string) : option string :=
  c ← coloring !! n;
  Some (n +:+ String (Ascii.ascii_of_nat 10) ("(C" +:+ pretty c +:+ ")")).

(** Line 94, the labels of all nodes; [None] stands for a [KeyError]. *)
Definition draw_labels (nodes : list string) (coloring : gmap string Z)
  : option (list (string * string)) :=
  mapM (λ n, l ← node_label coloring n; Some (n, l)) nodes.

(** * [schedule_from_coloring] *)

(** One row of the returned data frame. *)
Record row := {
  Exam : string;
  Slot : Z;
  start : Z;
  duration : Z;
  TimeLabel : string
}.

Global Instance row_eq_dec : EqDecision row.
Proof. solve_decision. Defined.

(** The format [{n:02d}]: zero-padded to two characters, the sign counted. *)
Definition format_02d (n : Z) : string :=
  if decide (0 ≤ n < 10) then "0" +:+ pretty n else pretty n.

(** The sort key of line 104, [(x[1], x[0])], for an item [x = (exam, c)]. *)
Definition item_key (x : string * Z) : Z * string := (x.2, x.1).

Definition item_le (x y : string * Z) : Prop := key_le (item_key x) (item_key y).

Global Instance item_le_dec : RelDecision item_le.
Proof. intros x y. unfold item_le. apply _. Defined.

(** Lines 105-112, the body of the loop. *)
Definition make_row (slot_start_hour slot_duration : Z) (x : string * Z) : row :=
  let c := x.2 in
  let start := slot_start_hour + (c - 1) * slot_duration in
  {| Exam := x.1;
     Slot := c;
     start := start;
     duration := slot_duration;
     TimeLabel := "Slot " +:+ pretty c +:+ " (" +:+ format_02d start +:+ ":00 - "
                  +:+ format_02d (start + slot_duration) +:+ ":00)" |}.

(** Lines 103-113, with [cenum] the walk of [coloring.items()]. *)
Definition schedule_enum (cenum : list (string * Z))
    (slot_start_hour slot_duration : Z) : list row :=
  make_row slot_start_hour slot_duration <$> merge_sort item_le cenum.

Definition schedule_from_coloring (coloring : gmap string Z)
    (slot_start_hour slot_duration : Z) : list row :=
  schedule_enum (map_to_list coloring) slot_start_hour slot_duration.

(** How a call ends: with a value, or with an exception. *)
Inductive outcome (A : Type) : Type :=
  | Returns (a : A)
  | Raises (exn : string).
Arguments Returns {A} a.
Arguments Raises {A} exn.

(** A call of [schedule_from_coloring]: the body holds no [raise], and
    none of its operations on integers and strings fails, so every call
    returns its rows. *)
Definition call_schedule_from_coloring (coloring : gmap string Z)
    (slot_start_hour slot_duration : Z) : outcome (list row) :=
  Returns (schedule_from_coloring coloring slot_start_hour slot_duration).

(** * The manual tab (lines 176-214) *)

(** The two entries the tab keeps in [st.session_state]. *)
Record session := {
  manual_exams : list string;
  manual_edges : gset (string * string)
}.

(** Lines 177-180: the entries as first created. *)
Definition initial_session : session :=
  {| manual_exams := ["Math"; "Physics"; "Chemistry"]; manual_edges := ∅ |}.

(** Lines 183-185, the button "Add":
<<
    if new_exam and new_exam not in st.session_state.manual_exams:
        st.session_state.manual_exams.append(new_exam)
>> *)
Definition add_exam (new_exam : string) (s : session) : session :=
  if decide (new_exam ≠ "" ∧ new_exam ∉ manual_exams s)
  then {| manual_exams := manual_exams s ++ [new_exam];
          manual_edges := manual_edges s |}
  else s.

(** [tuple(sorted([ex1, ex2]))] *)
Definition sorted_pair (ex1 ex2 : string) : string * string :=
  if decide (String.le ex1 ex2) then (ex1, ex2) else (ex2, ex1).

(** Lines 191-193, the button "Add conflict":
<<
    if ex1 != ex2:
        st.session_state.manual_edges.add(tuple(sorted([ex1, ex2])))
>> *)
Definition add_conflict (ex1 ex2 : string) (s : session) : session :=
  if decide (ex1 ≠ ex2)
  then {| manual_exams := manual_exams s;
          manual_edges := manual_edges s ∪ {[sorted_pair ex1 ex2]} |}
  else s.

(** Lines 195-196, the button "Clear edges". *)
Definition clear_edges (s : session) : session :=
  {| manual_exams := manual_exams s; manual_edges := ∅ |}.

(** One click.  The two select boxes offer the entries of [manual_exams],
    so "Add conflict" is clicked with two of them. *)
Inductive click : session → session → Prop :=
  | click_add new_exam s : click s (add_exam new_exam s)
  | click_add_conflict ex1 ex2 s :
      ex1 ∈ manual_exams s → ex2 ∈ manual_exams s →
      click s (add_conflict ex1 ex2 s)
  | click_clear s : click s (clear_edges s).

(** Lines 199-203, the button "Run manually", with the subscripts checked:
<<
    conflicts = {e: set() for e in exams}
    for a, b in st.session_state.manual_edges:
        conflicts[a].add(b)
        conflicts[b].add(a)
>> *)
Definition manual_conflicts (s : session) : option (gmap string (gset string)) :=
  foldl_checked (λ conflicts p, add_edge_checked p.1 p.2 conflicts)
                (empty_sets (manual_exams s)) (elements (manual_edges s)).

(** Line 205. *)
Definition run_manually (s : session) : option (gmap string Z) :=
  manual_conflicts s ≫= welsh_powell_checked.

(** * Specification vocabulary *)

Definition symmetric (full : gmap string (gset string)) : Prop :=
  ∀ a b, b ∈ neighbours full a → a ∈ neighbours full b.

Definition irreflexive (adj : gmap string (gset string)) : Prop :=
  ∀ a, a ∉ neighbours adj a.

(** [edge_in items v u]: the walk of [adj.items()] meets [u] in the
    neighbours listed for [v]. *)
Definition edge_in (items : list (string * list string)) (v u : string) : Prop :=
  ∃ ns, (v, ns) ∈ items ∧ u ∈ ns.

(** [items] is a walk of [adj.items()]: each entry is met once, in some
    order, and each neighbour set is listed once, in some order. *)
Definition walk_of (adj : gmap string (gset string))
    (items : list (string * list string)) : Prop :=
  items.*1 ≡ₚ (map_to_list adj).*1 ∧
  ∀ v ns, (v, ns) ∈ items → ∃ s, adj !! v = Some s ∧ ns ≡ₚ elements s.

Definition lists_set (adj : gmap string (gset string)) (p : string * list string) : Prop :=
  match adj !! p.1 with
  | Some s => p.2 ≡ₚ elements s
  | None => False
  end.

(** [venum] enumerates the set [vertices] that lines 11-14 compute. *)
Definition enumerates_vertices (items : list (string * list string))
    (venum : list string) : Prop :=
  venum ≡ₚ elements (collect_vertices items).

(** [eenum] enumerates the set of line 50. *)
Definition enumerates_exams (items : list (string * list string))
    (eenum : list string) : Prop :=
  eenum ≡ₚ elements (enrolled_exams items).

(** [x] is placed strictly before [y]: larger degree first, and among equal
    degrees the smaller identifier first. *)
Definition precedes (full : gmap string (gset string)) (x y : string) : Prop :=
  degree full y < degree full x ∨
  (degree full x = degree full y ∧ String.le x y ∧ x ≠ y).

(** The loop invariant: with [k] colours handed out so far, the colours in
    use are exactly [1..k], only listed vertices are coloured, and no two
    distinct adjacent vertices share a colour. *)
Record colouring_inv (full : gmap string (gset string)) (order : list string)
    (k : Z) (color : gmap string Z) : Prop := {
  inv_range : ∀ x c, color !! x = Some c → 1 ≤ c ≤ k;
  inv_used : ∀ c, 1 ≤ c ≤ k → ∃ x, color !! x = Some c;
  inv_listed : ∀ x, is_Some (color !! x) → x ∈ order;
  inv_proper : ∀ a b ca cb, a ≠ b → b ∈ neighbours full a →
                 color !! a = Some ca → color !! b = Some cb → ca ≠ cb
}.

(** [courses] holds [x] and [y] at the positions [i] and [j], either way
    round. *)
Definition hit (courses : list string) (i j : nat) (x y : string) : Prop :=
  ∃ a b, courses !! i = Some a ∧ courses !! j = Some b ∧
         ((x = a ∧ y = b) ∨ (x = b ∧ y = a)).

(** [x] and [y] stand at two different positions of [courses]. *)
Definition paired (courses : list string) (x y : string) : Prop :=
  ∃ i j, (i < j)%nat ∧ hit courses i j x y.

(** The order of the rows: slot first, exam identifier within a slot. *)
Definition row_le (r1 r2 : row) : Prop :=
  Slot r1 < Slot r2 ∨ (Slot r1 = Slot r2 ∧ String.le (Exam r1) (Exam r2)).

(** [u] has a neighbour that carries the colour [c]. *)
Definition has_neighbour_coloured (full : gmap string (gset string))
    (color : gmap string Z) (u : string) (c : Z) : Prop :=
  ∃ nbr, nbr ∈ neighbours full u ∧ color !! nbr = Some c.

(** Each colour class below [cur] is maximal: a listed vertex that is not in
    a class up to [c] was kept out of class [c] by a neighbour in it. *)
Definition classes_maximal (full : gmap string (gset string)) (order : list string)
    (cur : Z) (color : gmap string Z) : Prop :=
  ∀ u c, u ∈ order → 1 ≤ c < cur →
    (∃ cu, color !! u = Some cu ∧ cu ≤ c) ∨ has_neighbour_coloured full color u c.

(** The table holds a line for [sid] sitting [e], with no cell missing. *)
Definition sits (df : list csv_row) (sid e : string) : Prop :=
  {| student_id := Some sid; exam := Some e |} ∈ df.

(** What every session that clicks can reach satisfies. *)
Record session_inv (s : session) : Prop := {
  inv_exams_nodup : NoDup (manual_exams s);
  inv_exams_nonempty : ∀ e, e ∈ manual_exams s → e ≠ "";
  inv_exams_initial : ∀ e, e ∈ manual_exams initial_session → e ∈ manual_exams s;
  inv_edges : ∀ a b, (a, b) ∈ manual_edges s →
                a ∈ manual_exams s ∧ b ∈ manual_exams s ∧ a ≠ b ∧ String.le a b
}.

(** * Concrete inputs *)

(** A triangle, a separate edge and an isolated vertex. *)
Definition campus : gmap string (gset string) :=
  {[ "Math" := {[ "Physics"; "Chemistry" ]};
     "Physics" := {[ "Math"; "Chemistry" ]};
     "Chemistry" := {[ "Math"; "Physics" ]};
     "History" := {[ "English" ]};
     "English" := {[ "History" ]};
     "Biology" := ∅ ]}.

(** An adjacency that is neither symmetric nor closed: ["C"] is no key. *)
Definition lopsided : gmap string (gset string) :=
  {[ "A" := {[ "B"; "C" ]}; "B" := {[ "C" ]} ]}.

(** A vertex that lists itself. *)
Definition looped : gmap string (gset string) :=
  {[ "A" := {[ "A"; "B" ]}; "B" := {[ "A" ]} ]}.

(** The dict [lopsided] walked back to front, its sets and the vertex set
    walked in another order. *)
Definition lopsided_items : list (string * list string) :=
  [("B", ["C"]); ("A", ["B"; "C"])].

Definition lopsided_venum : list string := ["B"; "C"; "A"].

(** Enrollments in which one student lists an exam twice. *)
Definition twice : gmap string (list string) := {[ "S1" := ["Math"; "Math"] ]}.

(** The enrollments of the round-trip scenario. *)
Definition round_trip : gmap string (list string) :=
  {[ "S1" := ["Math"; "Physics"]; "S2" := ["Physics"; "Chemistry"] ]}.

(** A colouring with two slots. *)
Definition two_slots : gmap string Z := {[ "A" := 1; "B" := 2 ]}.

(** An uploaded table with a repeated line and two incomplete lines. *)
Definition upload : list csv_row :=
  [ {| student_id := Some "S1"; exam := Some "Math" |};
    {| student_id := Some "S2"; exam := Some "Physics" |};
    {| student_id := Some "S1"; exam := Some "Physics" |};
    {| student_id := Some "S1"; exam := Some "Math" |};
    {| student_id := None; exam := Some "Biology" |};
    {| student_id := Some "S3"; exam := None |} ].

(** * Properties of the colouring loop *)

(** A generic invariant rule for [foldl]. *)
Lemma foldl_invariant {A B} (P : A → Prop) (f : A → B → A) (l : list B) (a : A) :
  P a → (∀ a b, b ∈ l → P a → P (f a b)) → P (foldl f a l).
Proof.
  revert a. induction l as [|b l IH]; intros a Ha Hstep; simpl; [done|].
  apply IH.
  - apply Hstep; [left | done].
  - intros a' b' Hb'. apply Hstep. by right.
Qed.

Lemma colour_free_spec full color cur u :
  colour_free full color cur u = true ↔
  ∀ nbr, nbr ∈ neighbours full u → color !! nbr ≠ Some cur.
Proof.
  unfold colour_free. rewrite forallb_forall. split.
  - intros H nbr Hn Hc. specialize (H nbr).
    rewrite <- list_elem_of_In, elem_of_elements in H.
    specialize (H Hn). rewrite Hc in H.
    apply bool_decide_eq_true in H. done.
  - intros H nbr Hn. rewrite <- list_elem_of_In, elem_of_elements in Hn.
    specialize (H nbr Hn). destruct (color !! nbr) as [c|]; [|done].
    apply bool_decide_eq_true. congruence.
Qed.

(** What one pass of the inner loop body does, case by case. *)
Lemma inner_step_cases full cur v color u :
  inner_step full cur v color u = color ∨
  (color !! u = None ∧ v ≠ u ∧
   (∀ nbr, nbr ∈ neighbours full u → color !! nbr ≠ Some cur) ∧
   inner_step full cur v color u = <[u := cur]> color).
Proof.
  unfold inner_step. destruct (color !! u) eqn:Hu; [by left|].
  destruct (colour_free full color cur u) eqn:Hf; [|by left].
  case_decide; [|by left]. right.
  by rewrite colour_free_spec in Hf.
Qed.

Lemma inner_step_mono full cur v color u :
  color ⊆ inner_step full cur v color u.
Proof.
  destruct (inner_step_cases full cur v color u) as [->|(Hu & _ & _ & ->)]; [done|].
  by apply insert_subseteq.
Qed.

Lemma inner_loop_mono full cur v order color :
  color ⊆ foldl (inner_step full cur v) color order.
Proof.
  revert color. induction order as [|u order IH]; intros color; simpl; [done|].
  etrans; [apply (inner_step_mono full cur v color u) | apply IH].
Qed.

Lemma outer_step_mono full order st v :
  st.1 ⊆ (outer_step full order st v).1.
Proof.
  unfold outer_step. destruct (st.1 !! v) eqn:Hv; [done|]. simpl.
  etrans; [|apply inner_loop_mono]. by apply insert_subseteq.
Qed.

Lemma outer_step_colours full order st v :
  is_Some ((outer_step full order st v).1 !! v).
Proof.
  unfold outer_step. destruct (st.1 !! v) eqn:Hv; [by rewrite Hv|]. simpl.
  exists st.2. eapply lookup_weaken; [|apply inner_loop_mono].
  apply lookup_insert_eq.
Qed.

Lemma outer_loop_mono full order l st :
  st.1 ⊆ (foldl (outer_step full order) st l).1.
Proof.
  revert st. induction l as [|v l IH]; intros st; simpl; [done|].
  etrans; [apply (outer_step_mono full order st v) | apply IH].
Qed.

(** Every vertex the outer loop has walked past is coloured. *)
Lemma outer_loop_colours full order l st v :
  v ∈ l → is_Some ((foldl (outer_step full order) st l).1 !! v).
Proof.
  revert st. induction l as [|w l IH]; intros st Hv; [by apply elem_of_nil in Hv|].
  simpl. apply elem_of_cons in Hv as [->|Hv]; [|by apply IH].
  destruct (outer_step_colours full order st w) as [c Hc].
  exists c. eapply lookup_weaken; [exact Hc | apply outer_loop_mono].
Qed.

Section loop.
Variable full : gmap string (gset string).
Variable order : list string.
Hypothesis full_sym : symmetric full.

Lemma inv_empty : colouring_inv full order 0 ∅.
Proof.
  split.
  - intros x c H. by rewrite lookup_empty in H.
  - intros c ?. lia.
  - intros x [c H]. by rewrite lookup_empty in H.
  - intros a b ca cb _ _ H. by rewrite lookup_empty in H.
Qed.

Lemma inv_inner_step k v color u :
  1 ≤ k → u ∈ order →
  colouring_inv full order k color →
  colouring_inv full order k (inner_step full k v color u).
Proof.
  intros Hk Hu [Hr Hus Hl Hp].
  destruct (inner_step_cases full k v color u) as [->|(Hnone & _ & Hfree & ->)];
    [by split|].
  split.
  - intros x c. rewrite lookup_insert. case_decide; [|by apply Hr].
    intros [= <-]. lia.
  - intros c Hc. destruct (Hus c Hc) as [x Hx]. exists x.
    rewrite lookup_insert_ne; [done|]. intros ->. congruence.
  - intros x. rewrite lookup_insert. case_decide; [by subst|]. apply Hl.
  - intros a b ca cb Hab Hnb. rewrite !lookup_insert.
    repeat case_decide; subst.
    + done.
    + intros [= <-] Hb ->. by apply (Hfree b).
    + intros Ha [= <-] ->. apply (Hfree a); [by apply full_sym | done].
    + by apply Hp.
Qed.

Lemma inv_outer_step st v :
  v ∈ order → 1 ≤ st.2 →
  colouring_inv full order (st.2 - 1) st.1 →
  1 ≤ (outer_step full order st v).2 ∧
  colouring_inv full order ((outer_step full order st v).2 - 1)
                (outer_step full order st v).1.
Proof.
  intros Hv Hk Hinv. unfold outer_step.
  destruct (st.1 !! v) eqn:Hcv; [done|]. simpl.
  split; [lia|]. replace (st.2 + 1 - 1) with st.2 by lia.
  apply foldl_invariant; [|intros; by apply inv_inner_step].
  destruct Hinv as [Hr Hus Hl Hp]. split.
  - intros x c. rewrite lookup_insert. case_decide.
    + intros [= <-]. lia.
    + intros Hx%Hr. lia.
  - intros c Hc. destruct (decide (c = st.2)) as [->|Hne].
    + exists v. apply lookup_insert_eq.
    + destruct (Hus c) as [x Hx]; [lia|]. exists x.
      rewrite lookup_insert_ne; [done|]. intros ->. congruence.
  - intros x. rewrite lookup_insert. case_decide; [by subst|]. apply Hl.
  - intros a b ca cb Hab Hnb. rewrite !lookup_insert.
    repeat case_decide; subst.
    + done.
    + intros [= <-] Hb%Hr. lia.
    + intros Ha%Hr [= <-]. lia.
    + by apply Hp.
Qed.

Lemma inv_colour_loop :
  1 ≤ (colour_loop full order).2 ∧
  colouring_inv full order ((colour_loop full order).2 - 1)
                (colour_loop full order).1.
Proof.
  unfold colour_loop.
  apply (foldl_invariant
           (λ st, 1 ≤ st.2 ∧ colouring_inv full order (st.2 - 1) st.1)).
  - split; [done|]. apply inv_empty.
  - intros st v Hv [Hk Hinv]. by apply inv_outer_step.
Qed.

Lemma colour_loop_total v :
  is_Some ((colour_loop full order).1 !! v) ↔ v ∈ order.
Proof.
  split.
  - apply inv_colour_loop.
  - apply outer_loop_colours.
Qed.
End loop.

(** * The vertex set and the symmetrised adjacency *)

Lemma edge_in_nil v u : ¬ edge_in [] v u.
Proof. intros (ns & H & _). by apply elem_of_nil in H. Qed.

Lemma edge_in_cons p items v u :
  edge_in (p :: items) v u ↔ (p.1 = v ∧ u ∈ p.2) ∨ edge_in items v u.
Proof.
  unfold edge_in. split.
  - intros (ns & [<-|H]%elem_of_cons & Hu); [by left | right; eauto].
  - intros [[<- Hu]|(ns & H & Hu)].
    + exists p.2. split; [|done]. destruct p; left.
    + exists ns. split; [by right | done].
Qed.

Lemma elem_of_add_all (ns : list string) (vs : gset string) x :
  x ∈ foldl (λ vs u, vs ∪ {[u]}) vs ns ↔ x ∈ vs ∨ x ∈ ns.
Proof.
  revert vs. induction ns as [|u ns IH]; intros vs; simpl.
  - rewrite elem_of_nil. tauto.
  - rewrite IH, elem_of_cons. set_solver.
Qed.

Lemma elem_of_add_all_items (items : list (string * list string)) (vs : gset string) x :
  x ∈ foldl (λ vs p, foldl (λ vs u, vs ∪ {[u]}) vs p.2) vs items ↔
  x ∈ vs ∨ ∃ v, edge_in items v x.
Proof.
  revert vs. induction items as [|p items IH]; intros vs; simpl.
  - split; [by left|]. intros [?|[v H]]; [done|]. by apply edge_in_nil in H.
  - rewrite IH, elem_of_add_all. setoid_rewrite edge_in_cons. naive_solver.
Qed.

(** The vertices are the keys together with everything listed as a
    neighbour. *)
Lemma elem_of_collect_vertices items x :
  x ∈ collect_vertices items ↔ x ∈ items.*1 ∨ ∃ v, edge_in items v x.
Proof.
  unfold collect_vertices. by rewrite elem_of_add_all_items, elem_of_list_to_set.
Qed.

Lemma lookup_empty_sets_acc (vs : list string) (m : gmap string (gset string)) x :
  foldl (λ m v, <[v := ∅]> m) m vs !! x =
  if decide (x ∈ vs) then Some ∅ else m !! x.
Proof.
  revert m. induction vs as [|v vs IH]; intros m; simpl.
  - destruct (decide (x ∈ [])) as [H|H]; [by apply elem_of_nil in H | done].
  - rewrite IH. repeat case_decide; try done.
    + exfalso. set_solver.
    + rewrite lookup_insert. case_decide; [done|]. set_solver.
    + rewrite lookup_insert_ne; [done|]. set_solver.
Qed.

Lemma lookup_empty_sets vs x :
  empty_sets vs !! x = if decide (x ∈ vs) then Some ∅ else None.
Proof. unfold empty_sets. by rewrite lookup_empty_sets_acc, lookup_empty. Qed.

Lemma neighbours_empty_sets vs x : neighbours (empty_sets vs) x = ∅.
Proof. unfold neighbours. rewrite lookup_empty_sets. by case_decide. Qed.

Lemma dom_set_add a b m : dom (set_add a b m) = dom m.
Proof. unfold set_add. by rewrite dom_alter_L. Qed.

Lemma dom_add_edge a b m : dom (add_edge a b m) = dom m.
Proof. unfold add_edge. by rewrite !dom_set_add. Qed.

(** [m[a].add(b)] on a key that is present: no [KeyError], and only the
    set under [a] grows. *)
Lemma elem_of_neighbours_set_add a b m x y :
  a ∈ dom m →
  y ∈ neighbours (set_add a b m) x ↔ y ∈ neighbours m x ∨ (x = a ∧ y = b).
Proof.
  intros [s Hs]%elem_of_dom. unfold neighbours, set_add.
  rewrite lookup_alter. case_decide as Hxa.
  - subst. rewrite Hs. simpl. set_solver.
  - naive_solver.
Qed.

Lemma elem_of_neighbours_add_edge a b m x y :
  a ∈ dom m → b ∈ dom m →
  y ∈ neighbours (add_edge a b m) x ↔
  y ∈ neighbours m x ∨ (x = a ∧ y = b) ∨ (x = b ∧ y = a).
Proof.
  intros Ha Hb. unfold add_edge.
  rewrite elem_of_neighbours_set_add by (by rewrite dom_set_add).
  rewrite elem_of_neighbours_set_add by done. tauto.
Qed.

Lemma dom_add_edges a (ns : list string) m :
  dom (foldl (λ full u, add_edge a u full) m ns) = dom m.
Proof.
  revert m. induction ns as [|u ns IH]; intros m; simpl; [done|].
  by rewrite IH, dom_add_edge.
Qed.

Lemma elem_of_neighbours_add_edges a (ns : list string) m x y :
  a ∈ dom m → (∀ u, u ∈ ns → u ∈ dom m) →
  y ∈ neighbours (foldl (λ full u, add_edge a u full) m ns) x ↔
  y ∈ neighbours m x ∨ (x = a ∧ y ∈ ns) ∨ (y = a ∧ x ∈ ns).
Proof.
  revert m. induction ns as [|u ns IH]; intros m Ha Hns; simpl.
  - rewrite !elem_of_nil. tauto.
  - rewrite IH.
    + rewrite elem_of_neighbours_add_edge; [|done|apply Hns; left].
      rewrite !elem_of_cons. naive_solver.
    + by rewrite dom_add_edge.
    + intros w Hw. rewrite dom_add_edge. apply Hns. by right.
Qed.

Lemma dom_add_items (items : list (string * list string)) m :
  dom (foldl (λ full p, foldl (λ full u, add_edge p.1 u full) full p.2) m items)
  = dom m.
Proof.
  revert m. induction items as [|p items IH]; intros m; simpl; [done|].
  by rewrite IH, dom_add_edges.
Qed.

Lemma elem_of_neighbours_add_items (items : list (string * list string)) m x y :
  (∀ v, v ∈ items.*1 → v ∈ dom m) →
  (∀ v u, edge_in items v u → u ∈ dom m) →
  y ∈ neighbours
        (foldl (λ full p, foldl (λ full u, add_edge p.1 u full) full p.2) m items) x ↔
  y ∈ neighbours m x ∨ edge_in items x y ∨ edge_in items y x.
Proof.
  revert m. induction items as [|p items IH]; intros m Hk He; simpl.
  - split; [by left|]. intros [?|[H|H]]; [done| |]; by apply edge_in_nil in H.
  - rewrite IH.
    + rewrite elem_of_neighbours_add_edges.
      * rewrite !edge_in_cons. naive_solver.
      * apply Hk. left.
      * intros u Hu. apply (He p.1). apply edge_in_cons. by left.
    + intros v Hv. rewrite dom_add_edges. apply Hk. by right.
    + intros v u Hvu. rewrite dom_add_edges. apply (He v).
      apply edge_in_cons. by right.
Qed.

Lemma enumerates_vertices_elem_of items venum x :
  enumerates_vertices items venum →
  x ∈ venum ↔ x ∈ collect_vertices items.
Proof. intros ->. apply elem_of_elements. Qed.

Lemma dom_empty_sets vs : dom (empty_sets vs) = list_to_set vs.
Proof.
  apply set_eq. intros x.
  rewrite elem_of_dom, lookup_empty_sets, elem_of_list_to_set.
  case_decide; split; try done; by intros [].
Qed.

(** [full] has one entry per vertex, so no subscript of lines 19, 20, 22
    and 32 can raise [KeyError]. *)
Lemma dom_build_full items venum :
  enumerates_vertices items venum →
  dom (build_full items venum) = collect_vertices items.
Proof.
  intros Hv. unfold build_full. rewrite dom_add_items, dom_empty_sets.
  apply set_eq. intros x.
  by rewrite elem_of_list_to_set, (enumerates_vertices_elem_of items).
Qed.

(** [full] is the symmetric closure of the listed adjacency. *)
Lemma elem_of_neighbours_build_full items venum x y :
  enumerates_vertices items venum →
  y ∈ neighbours (build_full items venum) x ↔ edge_in items x y ∨ edge_in items y x.
Proof.
  intros Hv. unfold build_full. rewrite elem_of_neighbours_add_items.
  - rewrite neighbours_empty_sets. set_solver.
  - intros v Hk. rewrite dom_empty_sets, elem_of_list_to_set.
    rewrite (enumerates_vertices_elem_of items) by done.
    apply elem_of_collect_vertices. by left.
  - intros v u Hvu. rewrite dom_empty_sets, elem_of_list_to_set.
    rewrite (enumerates_vertices_elem_of items) by done.
    apply elem_of_collect_vertices. right. by exists v.
Qed.

Lemma build_full_symmetric items venum :
  enumerates_vertices items venum → symmetric (build_full items venum).
Proof.
  intros Hv a b. rewrite !elem_of_neighbours_build_full by done. tauto.
Qed.

(** ** No subscript raises *)

Lemma foldl_checked_invariant {A B} (P : A → Prop) (f : A → B → option A)
    (g : A → B → A) (l : list B) (a : A) :
  P a → (∀ a b, b ∈ l → P a → f a b = Some (g a b) ∧ P (g a b)) →
  foldl_checked f a l = Some (foldl g a l) ∧ P (foldl g a l).
Proof.
  revert a. induction l as [|b l IH]; intros a Ha Hstep; simpl; [done|].
  destruct (Hstep a b) as [-> Hg]; [left | done |]. simpl.
  apply IH; [done|]. intros a' b' Hb'. apply Hstep. by right.
Qed.

Lemma set_add_checked_present a b m :
  a ∈ dom m → set_add_checked a b m = Some (set_add a b m).
Proof. intros [s Hs]%elem_of_dom. unfold set_add_checked. by rewrite Hs. Qed.

Lemma add_edge_checked_present a b m :
  a ∈ dom m → b ∈ dom m → add_edge_checked a b m = Some (add_edge a b m).
Proof.
  intros Ha Hb. unfold add_edge_checked, add_edge.
  rewrite set_add_checked_present by done. simpl.
  apply set_add_checked_present. by rewrite dom_set_add.
Qed.

(** With an entry for every key and every listed neighbour, lines 19 and
    20 find each key they subscript. *)
Lemma build_full_checked_present items venum :
  enumerates_vertices items venum →
  build_full_checked items venum = Some (build_full items venum).
Proof.
  intros Hv. unfold build_full_checked, build_full.
  apply (foldl_checked_invariant (λ m, dom m = collect_vertices items)).
  - rewrite dom_empty_sets. apply set_eq. intros x.
    by rewrite elem_of_list_to_set, (enumerates_vertices_elem_of items).
  - intros m [v ns] Hp Hd. simpl.
    apply (foldl_checked_invariant (λ m, dom m = collect_vertices items)); [done|].
    intros m' u Hu Hd'. rewrite dom_add_edge. split; [|done].
    apply add_edge_checked_present; rewrite Hd'; apply elem_of_collect_vertices.
    + left. apply list_elem_of_fmap. by exists (v, ns).
    + right. exists v, ns. done.
Qed.

(** * Enumerations of the input dict *)

Lemma elem_of_keys_map_to_list (adj : gmap string (gset string)) v :
  v ∈ (map_to_list adj).*1 ↔ v ∈ dom adj.
Proof.
  rewrite list_elem_of_fmap, elem_of_dom. split.
  - intros ([w s] & -> & H%elem_of_map_to_list). by exists s.
  - intros [s H]. exists (v, s). by rewrite elem_of_map_to_list.
Qed.

Lemma walk_of_keys adj items v :
  walk_of adj items → v ∈ items.*1 ↔ v ∈ dom adj.
Proof. intros [-> _]. apply elem_of_keys_map_to_list. Qed.

Lemma walk_of_edge_in adj items v u :
  walk_of adj items → edge_in items v u ↔ u ∈ neighbours adj v.
Proof.
  intros Hw. unfold neighbours. split.
  - intros (ns & Hin & Hu). destruct Hw as [_ Hw].
    destruct (Hw v ns Hin) as (s & -> & Hp). simpl.
    rewrite <- elem_of_elements. by rewrite <- Hp.
  - intros Hu. destruct (adj !! v) as [s|] eqn:Hs; [|set_solver].
    assert (v ∈ items.*1) as Hv.
    { rewrite (walk_of_keys adj) by done. apply elem_of_dom. by exists s. }
    apply list_elem_of_fmap in Hv as ([w ns] & -> & Hin).
    exists ns. split; [done|]. destruct Hw as [_ Hw].
    destruct (Hw _ _ Hin) as (s' & Hs' & ->). simpl in *.
    rewrite Hs in Hs'. injection Hs' as <-. by apply elem_of_elements.
Qed.

Lemma walk_of_adj_items adj : walk_of adj (adj_items adj).
Proof.
  unfold adj_items. split.
  - by rewrite <- list_fmap_compose.
  - intros v ns ([w s] & [= -> ->] & H%elem_of_map_to_list)%list_elem_of_fmap.
    by exists s.
Qed.

Lemma walk_of_vertices adj items x :
  walk_of adj items →
  x ∈ collect_vertices items ↔ x ∈ dom adj ∨ ∃ v, x ∈ neighbours adj v.
Proof.
  intros Hw. rewrite elem_of_collect_vertices, (walk_of_keys adj) by done.
  by setoid_rewrite (walk_of_edge_in adj items).
Qed.

Lemma map_eq_neighbours (m1 m2 : gmap string (gset string)) :
  dom m1 = dom m2 → (∀ x, neighbours m1 x = neighbours m2 x) → m1 = m2.
Proof.
  intros Hd Hn. apply map_eq. intros x. specialize (Hn x). unfold neighbours in Hn.
  assert (is_Some (m1 !! x) ↔ is_Some (m2 !! x)) as Hx
    by (by rewrite <- !elem_of_dom, Hd).
  destruct (m1 !! x) as [s1|] eqn:H1, (m2 !! x) as [s2|] eqn:H2; simpl in *.
  - by subst.
  - destruct Hx as [Hx _]. by destruct Hx.
  - destruct Hx as [_ Hx]. by destruct Hx.
  - done.
Qed.

(** Two walks of the same dict build the same [full]. *)
Lemma build_full_walk adj items1 venum1 items2 venum2 :
  walk_of adj items1 → enumerates_vertices items1 venum1 →
  walk_of adj items2 → enumerates_vertices items2 venum2 →
  build_full items1 venum1 = build_full items2 venum2.
Proof.
  intros Hw1 Hv1 Hw2 Hv2. apply map_eq_neighbours.
  - rewrite !dom_build_full by done. apply set_eq. intros x.
    by rewrite (walk_of_vertices adj items1), (walk_of_vertices adj items2).
  - intros x. apply set_eq. intros y.
    rewrite !elem_of_neighbours_build_full by done.
    by rewrite !(walk_of_edge_in adj items1), !(walk_of_edge_in adj items2).
Qed.

(** * The vertex order *)

Global Instance key_le_total : Total key_le.
Proof.
  intros [d1 s1] [d2 s2]. unfold key_le. simpl.
  destruct (Z.lt_trichotomy d1 d2) as [?|[->|?]]; [by left; left| |by right; left].
  destruct (total String.le s1 s2); [left|right]; by right.
Qed.

Global Instance key_le_trans : Transitive key_le.
Proof.
  intros [d1 s1] [d2 s2] [d3 s3]. unfold key_le. simpl.
  intros [?|[-> H12]] [?|[-> H23]]; [left; lia | by left | by left |].
  right. split; [done|]. by etrans.
Qed.

Global Instance key_le_antisym : AntiSymm (=) key_le.
Proof.
  intros [d1 s1] [d2 s2]. unfold key_le. simpl.
  intros [?|[? H12]] [?|[? H21]]; try lia.
  f_equal; [done|]. by apply (anti_symm String.le).
Qed.

Global Instance order_le_total full : Total (order_le full).
Proof. intros x y. apply (total key_le). Qed.

Global Instance order_le_trans full : Transitive (order_le full).
Proof. intros x y z. apply (transitivity (R := key_le)). Qed.

Global Instance order_le_antisym full : AntiSymm (=) (order_le full).
Proof.
  intros x y Hxy Hyx.
  assert (order_key full x = order_key full y) as H
    by (by apply (anti_symm key_le)).
  by injection H.
Qed.

Lemma order_le_precedes full x y : order_le full x y → x ≠ y → precedes full x y.
Proof.
  unfold order_le, key_le, order_key, precedes. simpl.
  intros [?|[? ?]] ?; [left; lia | right]. split; [lia | done].
Qed.

Lemma vertex_order_perm full enum : vertex_order full enum ≡ₚ enum.
Proof. apply merge_sort_Permutation. Qed.

Lemma vertex_order_sorted full enum :
  StronglySorted (order_le full) (vertex_order full enum).
Proof. apply StronglySorted_merge_sort; apply _. Qed.

Lemma StronglySorted_NoDup_strict {A} (R S : relation A) (l : list A) :
  (∀ x y, R x y → x ≠ y → S x y) →
  NoDup l → StronglySorted R l → StronglySorted S l.
Proof.
  intros HRS. induction 1 as [|x l Hx Hl IH]; intros Hs; [constructor|].
  apply StronglySorted_inv in Hs as [Hs Hall]. constructor; [by apply IH|].
  rewrite Forall_forall in Hall |- *. intros y Hy.
  apply HRS; [by apply Hall|]. intros ->. done.
Qed.

Lemma vertex_order_strict full enum :
  NoDup enum → StronglySorted (precedes full) (vertex_order full enum).
Proof.
  intros Hnd.
  apply (StronglySorted_NoDup_strict (order_le full)).
  - apply order_le_precedes.
  - by rewrite vertex_order_perm.
  - apply vertex_order_sorted.
Qed.

(** The sort key is injective, so the sorted list does not depend on the
    order in which [full.keys()] is walked. *)
Lemma vertex_order_unique full enum1 enum2 :
  enum1 ≡ₚ enum2 → vertex_order full enum1 = vertex_order full enum2.
Proof.
  intros Hp. apply (Sorted_unique (order_le full)).
  - apply Sorted_merge_sort. apply _.
  - apply Sorted_merge_sort. apply _.
  - by rewrite !vertex_order_perm.
Qed.

(** Whatever stable sort [sorted] runs, its result is this list: there is
    only one sorted arrangement of the keys. *)
Lemma vertex_order_characterised full enum l :
  l ≡ₚ enum → Sorted (order_le full) l → l = vertex_order full enum.
Proof.
  intros Hp Hs. apply (Sorted_unique (order_le full)); [done| |].
  - apply Sorted_merge_sort. apply _.
  - by rewrite vertex_order_perm.
Qed.

(** * [welsh_powell] on a dict of sets *)

Lemma enumerates_vertices_elements adj :
  enumerates_vertices (adj_items adj) (elements (vertices adj)).
Proof. unfold enumerates_vertices, vertices. reflexivity. Qed.

Lemma elem_of_vertices adj x :
  x ∈ vertices adj ↔ x ∈ dom adj ∨ ∃ v, x ∈ neighbours adj v.
Proof. apply walk_of_vertices, walk_of_adj_items. Qed.

Lemma dom_full_of adj : dom (full_of adj) = vertices adj.
Proof. apply dom_build_full, enumerates_vertices_elements. Qed.

Lemma elem_of_neighbours_full_of adj x y :
  y ∈ neighbours (full_of adj) x ↔ y ∈ neighbours adj x ∨ x ∈ neighbours adj y.
Proof.
  unfold full_of.
  rewrite elem_of_neighbours_build_full by apply enumerates_vertices_elements.
  by rewrite !(walk_of_edge_in adj) by apply walk_of_adj_items.
Qed.

Lemma full_of_symmetric adj : symmetric (full_of adj).
Proof. apply build_full_symmetric, enumerates_vertices_elements. Qed.

Lemma elem_of_order_of adj x : x ∈ order_of adj ↔ x ∈ vertices adj.
Proof. unfold order_of. by rewrite vertex_order_perm, elem_of_elements. Qed.

Lemma welsh_powell_unfold adj :
  welsh_powell adj = (colour_loop (full_of adj) (order_of adj)).1.
Proof. done. Qed.

(** The run raises no [KeyError]: the checked run returns the colouring. *)
Lemma welsh_powell_checked_returns adj :
  welsh_powell_checked adj = Some (welsh_powell adj).
Proof.
  unfold welsh_powell_checked, welsh_powell_enum_checked.
  by rewrite build_full_checked_present by apply enumerates_vertices_elements.
Qed.

(** Lines 22 and 32 subscript [full] with members of [order] only, and
    these are keys of [full]. *)
Lemma order_of_keys adj x : x ∈ order_of adj → is_Some (full_of adj !! x).
Proof. rewrite elem_of_order_of, <- dom_full_of. apply elem_of_dom. Qed.

Lemma welsh_powell_inv adj :
  ∃ k, 0 ≤ k ∧ colouring_inv (full_of adj) (order_of adj) k (welsh_powell adj).
Proof.
  destruct (inv_colour_loop (full_of adj) (order_of adj) (full_of_symmetric adj))
    as [Hk Hinv].
  exists ((colour_loop (full_of adj) (order_of adj)).2 - 1). split; [lia | done].
Qed.

Lemma welsh_powell_coloured adj v :
  is_Some (welsh_powell adj !! v) ↔ v ∈ vertices adj.
Proof.
  rewrite welsh_powell_unfold, colour_loop_total by apply full_of_symmetric.
  apply elem_of_order_of.
Qed.

(** The two ends of an edge of the symmetrised graph, when they are two
    vertices, are both coloured, and differently. *)
Lemma welsh_powell_separates adj a b :
  a ≠ b → b ∈ neighbours adj a ∨ a ∈ neighbours adj b →
  ∃ ca cb, welsh_powell adj !! a = Some ca ∧ welsh_powell adj !! b = Some cb ∧ ca ≠ cb.
Proof.
  intros Hab Hedge.
  assert (is_Some (welsh_powell adj !! a)) as [ca Ha].
  { apply welsh_powell_coloured, elem_of_vertices. destruct Hedge; [|by eauto].
    left. apply elem_of_dom. unfold neighbours in *.
    destruct (adj !! a); [by eauto | set_solver]. }
  assert (is_Some (welsh_powell adj !! b)) as [cb Hb].
  { apply welsh_powell_coloured, elem_of_vertices. destruct Hedge; [by eauto|].
    left. apply elem_of_dom. unfold neighbours in *.
    destruct (adj !! b); [by eauto | set_solver]. }
  exists ca, cb. split; [done|]. split; [done|].
  destruct (welsh_powell_inv adj) as (k & _ & Hinv).
  eapply (inv_proper _ _ _ _ Hinv a b); [done| |done|done].
  by apply elem_of_neighbours_full_of.
Qed.

(** C1. On every conflict graph whose adjacency is symmetric and
    irreflexive, the colouring [welsh_powell] returns is proper: the two
    ends of every edge are coloured, with different colours.  Isolated
    vertices, several components and complete subgraphs are all instances. *)
Theorem welsh_powell_proper (adj : gmap string (gset string)) :
  symmetric adj → irreflexive adj →
  ∀ a b, b ∈ neighbours adj a →
    ∃ ca cb, welsh_powell adj !! a = Some ca ∧ welsh_powell adj !! b = Some cb ∧
             ca ≠ cb.
Proof.
  intros _ Hirr a b Hb. apply welsh_powell_separates; [|by left].
  intros ->. by apply (Hirr b).
Qed.

(** C4. Every vertex of the graph, be it a key of the adjacency or a member
    of some neighbour set, is a key of the colouring with a colour assigned,
    and the items of the colouring list it exactly once. *)
Theorem welsh_powell_total (adj : gmap string (gset string)) (v : string) :
  v ∈ dom adj ∨ (∃ w, v ∈ neighbours adj w) →
  (∃ c, welsh_powell adj !! v = Some c) ∧
  length (filter (λ p, p.1 = v) (map_to_list (welsh_powell adj))) = 1%nat.
Proof.
  intros Hv.
  assert (is_Some (welsh_powell adj !! v)) as [c Hc]
    by (by apply welsh_powell_coloured, elem_of_vertices).
  split; [by exists c|].
  assert (filter (λ p, p.1 = v) (map_to_list (welsh_powell adj)) ≡ₚ [(v, c)])
    as ->; [|done].
  apply NoDup_Permutation.
  - apply NoDup_filter, NoDup_map_to_list.
  - apply NoDup_singleton.
  - intros [x cx]. rewrite list_elem_of_filter, elem_of_map_to_list, list_elem_of_singleton.
    simpl. split.
    + intros [-> Hx]. congruence.
    + by intros [= -> ->].
Qed.

(** C5. The colours in use are exactly [1, ..., k] for some [k >= 0]. *)
Theorem welsh_powell_contiguous (adj : gmap string (gset string)) :
  ∃ k, 0 ≤ k ∧ ∀ c, (∃ v, welsh_powell adj !! v = Some c) ↔ 1 ≤ c ≤ k.
Proof.
  destruct (welsh_powell_inv adj) as (k & Hk & Hinv).
  exists k. split; [done|]. intros c. split.
  - intros [v Hv]. by apply (inv_range _ _ _ _ Hinv v).
  - apply (inv_used _ _ _ _ Hinv).
Qed.

(** C6. The vertices are processed in one list, [order], computed before the
    first colour is handed out: a duplicate-free listing of the vertices in
    which a vertex of larger degree in the symmetrised graph comes first and,
    among equal degrees, the lexicographically smaller identifier comes
    first.  Both the outer and the inner loop walk this same list. *)
Theorem welsh_powell_fixed_order (adj : gmap string (gset string)) :
  let full := full_of adj in
  let order := order_of adj in
  (∀ x y, y ∈ neighbours full x ↔ y ∈ neighbours adj x ∨ x ∈ neighbours adj y) ∧
  order ≡ₚ elements (vertices adj) ∧
  StronglySorted (precedes full) order ∧
  welsh_powell adj = (foldl (outer_step full order) (∅, 1) order).1 ∧
  ∀ st v, outer_step full order st v =
          match st.1 !! v with
          | Some _ => st
          | None => (foldl (inner_step full st.2 v) (<[v := st.2]> st.1) order,
                     st.2 + 1)
          end.
Proof.
  intros full order. split; [apply elem_of_neighbours_full_of|].
  split; [apply vertex_order_perm|].
  split; [apply vertex_order_strict, NoDup_elements|].
  split; done.
Qed.

(** C7. A self-loop in the input is ignored: the run raises nothing and
    returns its colouring, in which the vertex that lists itself is
    coloured, so is every other vertex, and every edge between two
    different vertices still joins different colours. *)
Theorem welsh_powell_self_loop (adj : gmap string (gset string)) (a : string) :
  a ∈ neighbours adj a →
  welsh_powell_checked adj = Some (welsh_powell adj) ∧
  is_Some (welsh_powell adj !! a) ∧
  (∀ v, v ∈ vertices adj → is_Some (welsh_powell adj !! v)) ∧
  (∀ x y, x ≠ y → y ∈ neighbours adj x →
     ∃ cx cy, welsh_powell adj !! x = Some cx ∧ welsh_powell adj !! y = Some cy ∧
              cx ≠ cy).
Proof.
  intros Ha. split; [apply welsh_powell_checked_returns|]. split; [|split].
  - apply welsh_powell_coloured, elem_of_vertices. right. by exists a.
  - intros v. apply welsh_powell_coloured.
  - intros x y Hxy Hy. apply welsh_powell_separates; [done | by left].
Qed.

(** C9. The colouring does not depend on the order in which Python walks
    the dict [adj], its neighbour sets or the set [vertices]: any two runs
    on the same graph return the same mapping. *)
Theorem welsh_powell_deterministic (adj : gmap string (gset string))
    (items1 items2 : list (string * list string)) (venum1 venum2 : list string) :
  walk_of adj items1 → enumerates_vertices items1 venum1 →
  walk_of adj items2 → enumerates_vertices items2 venum2 →
  welsh_powell_enum items1 venum1 = welsh_powell_enum items2 venum2.
Proof.
  intros Hw1 Hv1 Hw2 Hv2. unfold welsh_powell_enum.
  rewrite (build_full_walk adj items1 venum1 items2 venum2) by done.
  rewrite (vertex_order_unique _ venum1 venum2); [done|].
  unfold enumerates_vertices in *. rewrite Hv1, Hv2.
  assert (collect_vertices items1 = collect_vertices items2) as ->; [|done].
  apply set_eq. intros x.
  by rewrite (walk_of_vertices adj items1), (walk_of_vertices adj items2).
Qed.

(** C10. The adjacency need be neither symmetric nor closed under its
    neighbour sets: the run raises nothing, the coloured vertices are
    exactly the keys together with all listed neighbours, and the two ends
    of every edge of the symmetrised graph are coloured differently. *)
Theorem welsh_powell_symmetrises (adj : gmap string (gset string)) :
  welsh_powell_checked adj = Some (welsh_powell adj) ∧
  (∀ v, is_Some (welsh_powell adj !! v) ↔ v ∈ dom adj ∨ ∃ w, v ∈ neighbours adj w) ∧
  (∀ a b, a ≠ b → b ∈ neighbours adj a ∨ a ∈ neighbours adj b →
     ∃ ca cb, welsh_powell adj !! a = Some ca ∧ welsh_powell adj !! b = Some cb ∧
              ca ≠ cb).
Proof.
  split; [apply welsh_powell_checked_returns|]. split.
  - intros v. by rewrite welsh_powell_coloured, elem_of_vertices.
  - apply welsh_powell_separates.
Qed.

(** * Decision procedures for the hypotheses *)

Lemma symmetric_Forall adj :
  symmetric adj ↔
  map_Forall (λ a s, set_Forall (λ b, a ∈ neighbours adj b) s) adj.
Proof.
  unfold symmetric, neighbours. split.
  - intros H a s Hs b Hb. apply H. by rewrite Hs.
  - intros H a b Hb. destruct (adj !! a) as [s|] eqn:Hs; [|set_solver].
    by apply (H a s Hs b).
Qed.

Global Instance symmetric_dec adj : Decision (symmetric adj).
Proof.
  refine (cast_if (decide
    (map_Forall (λ a s, set_Forall (λ b, a ∈ neighbours adj b) s) adj)));
    by rewrite symmetric_Forall.
Defined.

Lemma irreflexive_Forall adj :
  irreflexive adj ↔ map_Forall (λ a s, a ∉ s) adj.
Proof.
  unfold irreflexive, neighbours. split.
  - intros H a s Hs Ha. apply (H a). by rewrite Hs.
  - intros H a. destruct (adj !! a) as [s|] eqn:Hs; [|set_solver].
    by apply (H a s).
Qed.

Global Instance irreflexive_dec adj : Decision (irreflexive adj).
Proof.
  refine (cast_if (decide (map_Forall (λ a s, a ∉ s) adj)));
    by rewrite irreflexive_Forall.
Defined.

Global Instance lists_set_dec adj p : Decision (lists_set adj p).
Proof. unfold lists_set. destruct (adj !! p.1); apply _. Defined.

Lemma walk_of_Forall adj items :
  walk_of adj items ↔
  items.*1 ≡ₚ (map_to_list adj).*1 ∧ Forall (lists_set adj) items.
Proof.
  unfold walk_of, lists_set. rewrite Forall_forall. split.
  - intros [Hk H]. split; [done|]. intros [v ns] Hin.
    destruct (H v ns Hin) as (s & Hs & Hp). simpl. by rewrite Hs.
  - intros [Hk H]. split; [done|]. intros v ns Hin. specialize (H _ Hin).
    simpl in H. destruct (adj !! v) as [s|]; [by exists s | done].
Qed.

Global Instance walk_of_dec adj items : Decision (walk_of adj items).
Proof.
  refine (cast_if (decide
    (items.*1 ≡ₚ (map_to_list adj).*1 ∧ Forall (lists_set adj) items)));
    by rewrite walk_of_Forall.
Defined.

Global Instance enumerates_vertices_dec items venum :
  Decision (enumerates_vertices items venum).
Proof. unfold enumerates_vertices. apply _. Defined.

(** Closes a decidable goal about concrete data by evaluating its decision
    procedure. *)
Ltac by_evaluation := apply (bool_decide_unpack _); vm_compute; exact I.

Lemma welsh_powell_proper_witness :
  ∃ ca cb, welsh_powell campus !! "History" = Some ca ∧
           welsh_powell campus !! "English" = Some cb ∧ ca ≠ cb.
Proof.
  apply (welsh_powell_proper campus); by_evaluation.
Defined.

Lemma welsh_powell_total_witness :
  (∃ c, welsh_powell lopsided !! "C" = Some c) ∧
  length (filter (λ p, p.1 = "C") (map_to_list (welsh_powell lopsided))) = 1%nat.
Proof.
  apply (welsh_powell_total lopsided "C").
  right. exists "A". by_evaluation.
Defined.

Lemma welsh_powell_self_loop_witness :
  welsh_powell_checked looped = Some (welsh_powell looped) ∧
  is_Some (welsh_powell looped !! "A") ∧
  (∀ v, v ∈ vertices looped → is_Some (welsh_powell looped !! v)) ∧
  (∀ x y, x ≠ y → y ∈ neighbours looped x →
     ∃ cx cy, welsh_powell looped !! x = Some cx ∧
              welsh_powell looped !! y = Some cy ∧ cx ≠ cy).
Proof.
  apply (welsh_powell_self_loop looped "A"). by_evaluation.
Defined.

Lemma welsh_powell_deterministic_witness :
  welsh_powell_enum (adj_items lopsided) (elements (vertices lopsided)) =
  welsh_powell_enum lopsided_items lopsided_venum.
Proof.
  apply (welsh_powell_deterministic lopsided); by_evaluation.
Defined.

Lemma welsh_powell_symmetrises_witness :
  ∃ ca cb, welsh_powell lopsided !! "C" = Some ca ∧
           welsh_powell lopsided !! "B" = Some cb ∧ ca ≠ cb.
Proof.
  apply (welsh_powell_symmetrises lopsided); [done | right; by_evaluation].
Defined.

(** ** Scenarios *)

(** Three vertices and no edge: one colour. *)
Example isolated_vertices :
  welsh_powell {[ "A" := ∅; "B" := ∅; "C" := ∅ ]}
  = {[ "A" := 1; "B" := 1; "C" := 1 ]}.
Proof. by vm_compute. Qed.

(** Three vertices and all three edges: three colours, handed out in the
    order of the identifiers since the degrees tie. *)
Example complete_graph :
  welsh_powell {[ "A" := {[ "B"; "C" ]}; "B" := {[ "A"; "C" ]}; "C" := {[ "A"; "B" ]} ]}
  = {[ "A" := 1; "B" := 2; "C" := 3 ]}.
Proof. by vm_compute. Qed.

(** The empty graph has the empty colouring. *)
Example empty_graph : welsh_powell ∅ = ∅.
Proof. by vm_compute. Qed.

(** * Properties of the conflict graph builder *)

Lemma hit_sym courses i j x y : hit courses i j x y → hit courses i j y x.
Proof. intros (a & b & ? & ? & ?). exists a, b. tauto. Qed.

Lemma paired_sym courses x y : paired courses x y → paired courses y x.
Proof. intros (i & j & ? & ?). exists i, j. eauto using hit_sym. Qed.

Lemma dom_pair_step courses i m j : dom (pair_step courses i m j) = dom m.
Proof.
  unfold pair_step. destruct (courses !! i), (courses !! j); try done.
  apply dom_add_edge.
Qed.

Lemma dom_pair_inner courses i js m :
  dom (foldl (pair_step courses i) m js) = dom m.
Proof.
  revert m. induction js as [|j js IH]; intros m; simpl; [done|].
  by rewrite IH, dom_pair_step.
Qed.

Lemma dom_pair_outer courses (is_ : list nat) m :
  dom (foldl (λ m i, foldl (pair_step courses i) m
                           (seq (S i) (length courses - S i))) m is_) = dom m.
Proof.
  revert m. induction is_ as [|i is_ IH]; intros m; simpl; [done|].
  by rewrite IH, dom_pair_inner.
Qed.

Lemma dom_pair_loop courses m : dom (pair_loop courses m) = dom m.
Proof. apply dom_pair_outer. Qed.

Section pairs.
Variable courses : list string.
Variable m0 : gmap string (gset string).
Hypothesis courses_dom : ∀ e, e ∈ courses → e ∈ dom m0.

Lemma elem_of_neighbours_pair_step i m j x y :
  dom m = dom m0 →
  y ∈ neighbours (pair_step courses i m j) x ↔
  y ∈ neighbours m x ∨ hit courses i j x y.
Proof.
  intros Hd. unfold pair_step, hit.
  destruct (courses !! i) as [a|] eqn:Ha; [|naive_solver].
  destruct (courses !! j) as [b|] eqn:Hb; [|naive_solver].
  rewrite elem_of_neighbours_add_edge.
  - naive_solver.
  - rewrite Hd. by eapply courses_dom, list_elem_of_lookup_2.
  - rewrite Hd. by eapply courses_dom, list_elem_of_lookup_2.
Qed.

Lemma elem_of_neighbours_pair_inner i js m x y :
  dom m = dom m0 →
  y ∈ neighbours (foldl (pair_step courses i) m js) x ↔
  y ∈ neighbours m x ∨ ∃ j, j ∈ js ∧ hit courses i j x y.
Proof.
  revert m. induction js as [|j js IH]; intros m Hd; simpl.
  - split; [by left|]. intros [?|(j & Hj & _)]; [done|]. by apply elem_of_nil in Hj.
  - rewrite IH by (by rewrite dom_pair_step).
    rewrite elem_of_neighbours_pair_step by done.
    setoid_rewrite elem_of_cons. naive_solver.
Qed.

Lemma elem_of_neighbours_pair_outer (is_ : list nat) m x y :
  dom m = dom m0 →
  y ∈ neighbours
        (foldl (λ m i, foldl (pair_step courses i) m
                             (seq (S i) (length courses - S i))) m is_) x ↔
  y ∈ neighbours m x ∨
  ∃ i j, i ∈ is_ ∧ j ∈ seq (S i) (length courses - S i) ∧ hit courses i j x y.
Proof.
  revert m. induction is_ as [|i is_ IH]; intros m Hd; simpl.
  - split; [by left|]. intros [?|(i & j & Hi & _)]; [done|].
    by apply elem_of_nil in Hi.
  - rewrite IH by (by rewrite dom_pair_inner).
    rewrite elem_of_neighbours_pair_inner by done.
    setoid_rewrite elem_of_cons. naive_solver.
Qed.

(** One student's list adds an edge for every two positions of it. *)
Lemma elem_of_neighbours_pair_loop x y :
  y ∈ neighbours (pair_loop courses m0) x ↔
  y ∈ neighbours m0 x ∨ paired courses x y.
Proof.
  unfold pair_loop. rewrite elem_of_neighbours_pair_outer by done.
  unfold paired. split; (intros [?|(i & j & H)]; [by left | right; exists i, j]).
  - destruct H as (_ & Hj%elem_of_seq & Hhit). split; [lia | done].
  - destruct H as (Hij & Hhit).
    assert (j < length courses)%nat as Hj.
    { destruct Hhit as (a & b & _ & Hb & _). by eapply lookup_lt_Some. }
    rewrite !elem_of_seq. split; [lia|]. split; [lia | done].
Qed.
End pairs.

Lemma dom_pair_items (items : list (string * list string)) m :
  dom (foldl (λ m p, pair_loop p.2 m) m items) = dom m.
Proof.
  revert m. induction items as [|p items IH]; intros m; simpl; [done|].
  by rewrite IH, dom_pair_loop.
Qed.

Lemma elem_of_neighbours_pair_items (items : list (string * list string)) m x y :
  (∀ p e, p ∈ items → e ∈ p.2 → e ∈ dom m) →
  y ∈ neighbours (foldl (λ m p, pair_loop p.2 m) m items) x ↔
  y ∈ neighbours m x ∨ ∃ p, p ∈ items ∧ paired p.2 x y.
Proof.
  revert m. induction items as [|p items IH]; intros m Hd; simpl.
  - split; [by left|]. intros [?|(p & Hp & _)]; [done|]. by apply elem_of_nil in Hp.
  - rewrite IH.
    + rewrite elem_of_neighbours_pair_loop by (intros e; apply Hd; left).
      setoid_rewrite elem_of_cons. naive_solver.
    + intros q e Hq He. rewrite dom_pair_loop. apply (Hd q); [by right | done].
Qed.

Lemma elem_of_enrolled_exams items e :
  e ∈ enrolled_exams items ↔ ∃ p, p ∈ items ∧ e ∈ p.2.
Proof.
  unfold enrolled_exams. rewrite elem_of_list_to_set, list_elem_of_join.
  setoid_rewrite list_elem_of_fmap. naive_solver.
Qed.

Lemma dom_build_conflicts_enum items eenum :
  enumerates_exams items eenum →
  dom (build_conflicts_enum items eenum) = enrolled_exams items.
Proof.
  intros He. unfold build_conflicts_enum.
  rewrite dom_pair_items, dom_empty_sets. apply set_eq. intros e.
  by rewrite elem_of_list_to_set, merge_sort_Permutation, He, elem_of_elements.
Qed.

Lemma elem_of_neighbours_build_conflicts_enum items eenum x y :
  enumerates_exams items eenum →
  y ∈ neighbours (build_conflicts_enum items eenum) x ↔
  ∃ p, p ∈ items ∧ paired p.2 x y.
Proof.
  intros He. unfold build_conflicts_enum.
  rewrite elem_of_neighbours_pair_items.
  - rewrite neighbours_empty_sets. set_solver.
  - intros p e Hp Hin. rewrite dom_empty_sets, elem_of_list_to_set.
    rewrite merge_sort_Permutation, He, elem_of_elements.
    apply elem_of_enrolled_exams. eauto.
Qed.

Lemma enumerates_exams_elements (enrollments : gmap string (list string)) :
  enumerates_exams (map_to_list enrollments)
                   (elements (enrolled_exams (map_to_list enrollments))).
Proof. unfold enumerates_exams. reflexivity. Qed.

(** The graph has one vertex per exam that some student lists. *)
Lemma elem_of_dom_build_conflicts (enrollments : gmap string (list string)) e :
  e ∈ dom (build_conflicts_from_enrollments enrollments) ↔
  ∃ student courses, enrollments !! student = Some courses ∧ e ∈ courses.
Proof.
  unfold build_conflicts_from_enrollments.
  rewrite dom_build_conflicts_enum by apply enumerates_exams_elements.
  rewrite elem_of_enrolled_exams. split.
  - intros ([student courses] & Hp%elem_of_map_to_list & He). eauto.
  - intros (student & courses & Hs & He). exists (student, courses).
    by rewrite elem_of_map_to_list.
Qed.

(** [y] is a neighbour of [x] exactly when some student lists them at two
    different positions. *)
Lemma elem_of_neighbours_build_conflicts (enrollments : gmap string (list string)) x y :
  y ∈ neighbours (build_conflicts_from_enrollments enrollments) x ↔
  ∃ student courses, enrollments !! student = Some courses ∧ paired courses x y.
Proof.
  unfold build_conflicts_from_enrollments.
  rewrite elem_of_neighbours_build_conflicts_enum by apply enumerates_exams_elements.
  split.
  - intros ([student courses] & Hp%elem_of_map_to_list & He). eauto.
  - intros (student & courses & Hs & He). exists (student, courses).
    by rewrite elem_of_map_to_list.
Qed.

(** The builder raises neither [IndexError] nor [KeyError]. *)
Lemma pair_loop_checked_present courses m :
  (∀ e, e ∈ courses → e ∈ dom m) →
  pair_loop_checked courses m = Some (pair_loop courses m) ∧
  dom (pair_loop courses m) = dom m.
Proof.
  intros Hd. unfold pair_loop_checked, pair_loop.
  apply (foldl_checked_invariant (λ m', dom m' = dom m)); [done|].
  intros m1 i Hi%elem_of_seq Hd1.
  apply (foldl_checked_invariant (λ m', dom m' = dom m)); [done|].
  intros m2 j Hj%elem_of_seq Hd2.
  destruct (lookup_lt_is_Some_2 courses i) as [a Ha]; [lia|].
  destruct (lookup_lt_is_Some_2 courses j) as [b Hb]; [lia|].
  unfold pair_step_checked, pair_step. rewrite Ha, Hb. simpl.
  rewrite dom_add_edge. split; [|done].
  apply add_edge_checked_present; rewrite Hd2; apply Hd;
    by eapply list_elem_of_lookup_2.
Qed.

Lemma build_conflicts_checked_returns (enrollments : gmap string (list string)) :
  build_conflicts_checked enrollments =
  Some (build_conflicts_from_enrollments enrollments).
Proof.
  unfold build_conflicts_checked, build_conflicts_from_enrollments,
    build_conflicts_enum.
  apply (foldl_checked_invariant
           (λ m, dom m = enrolled_exams (map_to_list enrollments))).
  - rewrite dom_empty_sets. apply set_eq. intros e.
    by rewrite elem_of_list_to_set, merge_sort_Permutation, elem_of_elements.
  - intros m p Hp Hd.
    destruct (pair_loop_checked_present p.2 m) as [-> Hd'].
    + intros e He. rewrite Hd. apply elem_of_enrolled_exams. eauto.
    + by rewrite Hd'.
Qed.

(** The symmetric half of C2 holds for every enrollment mapping. *)
Lemma build_conflicts_symmetric (enrollments : gmap string (list string)) :
  symmetric (build_conflicts_from_enrollments enrollments).
Proof.
  intros a b. rewrite !elem_of_neighbours_build_conflicts.
  intros (student & courses & Hs & Hp). eauto using paired_sym.
Qed.

(** The irreflexive half holds when no list repeats an exam. *)
Lemma build_conflicts_irreflexive (enrollments : gmap string (list string)) :
  map_Forall (λ _ courses, NoDup courses) enrollments →
  irreflexive (build_conflicts_from_enrollments enrollments).
Proof.
  intros Hnd a. rewrite elem_of_neighbours_build_conflicts.
  intros (student & courses & Hs & i & j & Hij & x & y & Hi & Hj & Hxy).
  assert (x = y) as -> by naive_solver.
  specialize (Hnd student courses Hs). simpl in Hnd.
  assert (i = j) by (by eapply NoDup_lookup). lia.
Qed.

(** It fails as soon as one list repeats an exam. *)
Lemma build_conflicts_repeated (enrollments : gmap string (list string))
    student courses e :
  enrollments !! student = Some courses → paired courses e e →
  e ∈ neighbours (build_conflicts_from_enrollments enrollments) e.
Proof. intros Hs Hp. rewrite elem_of_neighbours_build_conflicts. eauto. Qed.

(** C2. One student listing ["Math"] twice makes ["Math"] its own
    neighbour: the builder pairs positions, not exams, and has no guard
    against a pair of equal exams.  The call raises nothing and returns
    the graph with the loop. *)
Theorem build_conflicts_duplicate_self_loop :
  build_conflicts_checked twice = Some (build_conflicts_from_enrollments twice) ∧
  "Math" ∈ neighbours (build_conflicts_from_enrollments twice) "Math" ∧
  ¬ irreflexive (build_conflicts_from_enrollments twice).
Proof.
  assert ("Math" ∈ neighbours (build_conflicts_from_enrollments twice) "Math") as H
    by by_evaluation.
  split; [apply build_conflicts_checked_returns|].
  split; [done|]. intros Hirr. by apply (Hirr "Math").
Qed.

(** The round-trip scenario: ["Physics"] conflicts with both other exams,
    which share a slot. *)
Example round_trip_colouring :
  welsh_powell (build_conflicts_from_enrollments round_trip)
  = {[ "Physics" := 1; "Chemistry" := 2; "Math" := 2 ]}.
Proof. by vm_compute. Qed.

(** * Properties of the schedule mapper *)

Global Instance item_le_total : Total item_le.
Proof. intros x y. apply (total key_le). Qed.

Global Instance item_le_trans : Transitive item_le.
Proof. intros x y z. apply (transitivity (R := key_le)). Qed.

Global Instance item_le_antisym : AntiSymm (=) item_le.
Proof.
  intros [e1 c1] [e2 c2] H12 H21.
  assert (item_key (e1, c1) = item_key (e2, c2)) as H
    by (by apply (anti_symm key_le)).
  injection H as -> ->. done.
Qed.

(** The rows do not depend on the order in which [coloring.items()] is
    walked. *)
Lemma schedule_enum_unique cenum1 cenum2 h d :
  cenum1 ≡ₚ cenum2 → schedule_enum cenum1 h d = schedule_enum cenum2 h d.
Proof.
  intros Hp. unfold schedule_enum. f_equal.
  apply (Sorted_unique item_le).
  - apply Sorted_merge_sort. apply _.
  - apply Sorted_merge_sort. apply _.
  - by rewrite !merge_sort_Permutation.
Qed.

Lemma schedule_items coloring h d :
  (λ r, (Exam r, Slot r)) <$> schedule_from_coloring coloring h d =
  merge_sort item_le (map_to_list coloring).
Proof.
  unfold schedule_from_coloring, schedule_enum.
  rewrite <- list_fmap_compose. rewrite <- (list_fmap_id (merge_sort _ _)) at 2.
  apply list_fmap_ext. by intros _ [exam c] _.
Qed.

Lemma schedule_rows coloring h d :
  Forall (λ r, duration r = d ∧ start r = h + (Slot r - 1) * d)
         (schedule_from_coloring coloring h d).
Proof.
  unfold schedule_from_coloring, schedule_enum.
  apply Forall_fmap, Forall_true. by intros [exam c].
Qed.

Lemma schedule_length coloring h d :
  length (schedule_from_coloring coloring h d) = size coloring.
Proof.
  unfold schedule_from_coloring, schedule_enum.
  by rewrite length_fmap, merge_sort_Permutation, length_map_to_list.
Qed.

(** C8. The schedule has exactly one record per exam of the colouring,
    carrying the exam's slot and
    [start = slot_start_hour + (slot - 1) * slot_duration], and the records
    are ordered by slot, then by exam identifier within a slot. *)
Theorem schedule_from_coloring_sorted (coloring : gmap string Z)
    (slot_start_hour slot_duration : Z) :
  let rows := schedule_from_coloring coloring slot_start_hour slot_duration in
  (λ r, (Exam r, Slot r)) <$> rows ≡ₚ map_to_list coloring ∧
  NoDup (Exam <$> rows) ∧
  Forall (λ r, start r = slot_start_hour + (Slot r - 1) * slot_duration) rows ∧
  StronglySorted row_le rows.
Proof.
  intros rows. unfold rows. split; [|split; [|split]].
  - rewrite schedule_items. apply merge_sort_Permutation.
  - assert (Exam <$> schedule_from_coloring coloring slot_start_hour slot_duration
            = (merge_sort item_le (map_to_list coloring)).*1) as ->.
    { rewrite <- (schedule_items coloring slot_start_hour slot_duration).
      by rewrite <- list_fmap_compose. }
    rewrite merge_sort_Permutation. apply NoDup_fst_map_to_list.
  - eapply Forall_impl; [apply schedule_rows|]. by intros r [_ ?].
  - unfold schedule_from_coloring, schedule_enum.
    apply StronglySorted_fmap with (R1 := item_le).
    + by intros [e1 c1] [e2 c2].
    + apply StronglySorted_merge_sort; apply _.
Qed.

(** C3, as the code has it: a non-positive [slot_duration] is not
    rejected.  The call returns one record per exam, each with that
    duration, and a later slot then starts no later than an earlier one. *)
Theorem schedule_from_coloring_unchecked (coloring : gmap string Z)
    (slot_start_hour slot_duration : Z) :
  slot_duration ≤ 0 →
  ∃ rows,
    call_schedule_from_coloring coloring slot_start_hour slot_duration = Returns rows ∧
    length rows = size coloring ∧
    Forall (λ r, duration r = slot_duration ∧
                 start r = slot_start_hour + (Slot r - 1) * slot_duration) rows ∧
    ∀ r1 r2, r1 ∈ rows → r2 ∈ rows → Slot r1 ≤ Slot r2 → start r2 ≤ start r1.
Proof.
  intros Hd. exists (schedule_from_coloring coloring slot_start_hour slot_duration).
  split; [done|]. split; [apply schedule_length|].
  pose proof (schedule_rows coloring slot_start_hour slot_duration) as Hrows.
  split; [done|]. rewrite Forall_forall in Hrows.
  intros r1 r2 [_ ->]%Hrows [_ ->]%Hrows Hslot. nia.
Qed.

Lemma schedule_from_coloring_unchecked_witness :
  ∃ rows,
    call_schedule_from_coloring two_slots 9 (-2) = Returns rows ∧
    length rows = size two_slots ∧
    Forall (λ r, duration r = -2 ∧ start r = 9 + (Slot r - 1) * -2) rows ∧
    ∀ r1 r2, r1 ∈ rows → r2 ∈ rows → Slot r1 ≤ Slot r2 → start r2 ≤ start r1.
Proof.
  apply (schedule_from_coloring_unchecked two_slots 9 (-2)). lia.
Defined.

(** C3, as the claim has it, fails: with [slot_duration = 0] the call
    raises nothing and returns two windows that both start at 9. *)
Lemma schedule_from_coloring_accepts_zero :
  ¬ (∀ coloring slot_start_hour slot_duration, slot_duration ≤ 0 →
       ∃ exn, call_schedule_from_coloring coloring slot_start_hour slot_duration
              = Raises exn) ∧
  call_schedule_from_coloring two_slots 9 0 =
    Returns [ {| Exam := "A"; Slot := 1; start := 9; duration := 0;
                 TimeLabel := "Slot 1 (09:00 - 09:00)" |};
              {| Exam := "B"; Slot := 2; start := 9; duration := 0;
                 TimeLabel := "Slot 2 (09:00 - 09:00)" |} ].
Proof.
  split; [|by vm_compute].
  intros H. destruct (H two_slots 9 0) as [exn Hexn]; [lia|]. discriminate Hexn.
Qed.


(** * Further properties of [welsh_powell] *)

Lemma has_neighbour_coloured_mono full color color' u c :
  color ⊆ color' → has_neighbour_coloured full color u c →
  has_neighbour_coloured full color' u c.
Proof.
  intros Hsub (nbr & Hn & Hc). exists nbr. split; [done|].
  by eapply lookup_weaken.
Qed.

Lemma forallb_false {A} (f : A → bool) (l : list A) :
  forallb f l = false → ∃ x, x ∈ l ∧ f x = false.
Proof.
  induction l as [|x l IH]; simpl; [done|].
  destruct (f x) eqn:Hx; simpl.
  - intros (y & Hy & Hfy)%IH. exists y. split; [by right | done].
  - intros _. exists x. split; [left | done].
Qed.

(** When the test of line 32 fails, a neighbour carries the current colour. *)
Lemma colour_free_false full color cur u :
  colour_free full color cur u = false → has_neighbour_coloured full color u cur.
Proof.
  unfold colour_free. intros (nbr & Hn & Hf)%forallb_false.
  exists nbr. split; [by apply elem_of_elements|].
  destruct (color !! nbr) as [c|]; [|done].
  apply bool_decide_eq_false in Hf. f_equal. by destruct (decide (c = cur)).
Qed.

(** After the body of the inner loop has run on [u], either [u] is coloured
    or one of its neighbours carries the current colour. *)
Lemma inner_step_scanned full cur v color u :
  is_Some (color !! v) →
  is_Some (inner_step full cur v color u !! u) ∨
  has_neighbour_coloured full (inner_step full cur v color u) u cur.
Proof.
  intros Hv. unfold inner_step. destruct (color !! u) as [c|] eqn:Hu.
  - left. by rewrite Hu.
  - destruct (colour_free full color cur u) eqn:Hf.
    + case_decide as Hvu.
      * left. rewrite lookup_insert_eq. by eexists.
      * assert (v = u) as -> by (by destruct (decide (v = u))).
        rewrite Hu in Hv. by destruct Hv.
    + right. by apply colour_free_false.
Qed.

Lemma inner_loop_scanned full cur v l color u :
  is_Some (color !! v) → u ∈ l →
  is_Some (foldl (inner_step full cur v) color l !! u) ∨
  has_neighbour_coloured full (foldl (inner_step full cur v) color l) u cur.
Proof.
  revert color. induction l as [|w l IH]; intros color Hv Hu;
    [by apply elem_of_nil in Hu|].
  simpl. apply elem_of_cons in Hu as [->|Hu].
  - destruct (inner_step_scanned full cur v color w Hv) as [[c Hc]|Hn].
    + left. exists c. eapply lookup_weaken; [exact Hc | apply inner_loop_mono].
    + right. eapply has_neighbour_coloured_mono; [apply inner_loop_mono | done].
  - apply IH; [|done]. destruct Hv as [c Hc]. exists c.
    eapply lookup_weaken; [exact Hc | apply inner_step_mono].
Qed.

Lemma classes_maximal_outer_step full order st v :
  symmetric full → v ∈ order → 1 ≤ st.2 →
  colouring_inv full order (st.2 - 1) st.1 →
  classes_maximal full order st.2 st.1 →
  classes_maximal full order (outer_step full order st v).2
                  (outer_step full order st v).1.
Proof.
  intros Hsym Hv Hk Hinv Hmax.
  destruct (inv_outer_step full order Hsym st v Hv Hk Hinv) as [_ Hinv'].
  pose proof (outer_step_mono full order st v) as Hsub.
  revert Hinv' Hsub. unfold outer_step.
  destruct (st.1 !! v) eqn:Hcv; [done|]. simpl.
  replace (st.2 + 1 - 1) with st.2 by lia.
  intros Hinv' Hsub u c Hu Hc.
  destruct (decide (c = st.2)) as [->|Hne].
  - destruct (inner_loop_scanned full st.2 v order (<[v := st.2]> st.1) u)
      as [[cu Hcu]|Hn]; [by rewrite lookup_insert_eq | done | | by right].
    left. exists cu. split; [done|].
    by apply (inv_range _ _ _ _ Hinv' u).
  - destruct (Hmax u c) as [(cu & Hcu & Hle)|Hn]; [done | lia | |].
    + left. exists cu. split; [|done]. by eapply lookup_weaken.
    + right. by eapply has_neighbour_coloured_mono.
Qed.

Lemma colour_loop_maximal full order :
  symmetric full →
  classes_maximal full order (colour_loop full order).2 (colour_loop full order).1.
Proof.
  intros Hsym. unfold colour_loop.
  apply (foldl_invariant
           (λ st, (1 ≤ st.2 ∧ colouring_inv full order (st.2 - 1) st.1) ∧
                  classes_maximal full order st.2 st.1)).
  - split; [split; [done | apply inv_empty]|]. intros u c _ ?. simpl in *. lia.
  - intros st v Hv [[Hk Hinv] Hmax]. split.
    + by apply inv_outer_step.
    + by apply classes_maximal_outer_step.
Qed.

Lemma size_list_to_set_le (l : list nat) :
  (size (list_to_set (C := gset nat) l) ≤ length l)%nat.
Proof.
  induction l as [|x l IH]; [by rewrite list_to_set_nil, size_empty|].
  rewrite list_to_set_cons, size_union_alt, size_singleton. simpl.
  pose proof (subseteq_size (list_to_set (C := gset nat) l ∖ {[x]})
                            (list_to_set l)) as Hle.
  specialize (Hle ltac:(set_solver)). lia.
Qed.

(** Counting: if every number of [1..n] is the value of [f] at a member of
    [X], then [X] has at least [n] members. *)
Lemma size_ge_values (X : gset string) (f : string → nat) (n : nat) :
  (∀ i, (1 ≤ i ≤ n)%nat → ∃ x, x ∈ X ∧ f x = i) → (n ≤ size X)%nat.
Proof.
  intros Hval.
  assert (set_seq (C := gset nat) 1 n ⊆ list_to_set (f <$> elements X)) as Hsub.
  { intros i Hi%elem_of_set_seq. destruct (Hval i) as (x & Hx & <-); [lia|].
    apply elem_of_list_to_set, list_elem_of_fmap. exists x.
    split; [done|]. by apply elem_of_elements. }
  apply subseteq_size in Hsub. rewrite size_set_seq in Hsub.
  pose proof (size_list_to_set_le (f <$> elements X)) as Hle.
  rewrite length_fmap in Hle. unfold size, set_size. simpl. lia.
Qed.

Lemma lower_class_neighbour adj v c c' :
  welsh_powell adj !! v = Some c → 1 ≤ c' < c →
  ∃ nbr, nbr ∈ neighbours (full_of adj) v ∖ {[v]} ∧
         welsh_powell adj !! nbr = Some c'.
Proof.
  intros Hv Hc'.
  destruct (inv_colour_loop (full_of adj) (order_of adj) (full_of_symmetric adj))
    as [_ Hinv].
  pose proof (colour_loop_maximal (full_of adj) (order_of adj)
                (full_of_symmetric adj)) as Hmax.
  rewrite welsh_powell_unfold in Hv.
  destruct (Hmax v c') as [(cv & Hcv & Hle)|(nbr & Hn & Hnc)].
  - apply (inv_listed _ _ _ _ Hinv). by eexists.
  - apply (inv_range _ _ _ _ Hinv) in Hv. lia.
  - rewrite Hv in Hcv. injection Hcv as <-. lia.
  - exists nbr. split; [|by rewrite welsh_powell_unfold].
    apply elem_of_difference. split; [done|]. rewrite elem_of_singleton.
    intros ->. rewrite Hv in Hnc. injection Hnc as ->. lia.
Qed.

(** X1. Every colour class is maximal: a vertex coloured [c] has, for each
    smaller colour [c'], a neighbour other than itself that is coloured
    [c']. *)
Theorem welsh_powell_greedy (adj : gmap string (gset string)) (v : string) (c c' : Z) :
  welsh_powell adj !! v = Some c → 1 ≤ c' < c →
  ∃ nbr, nbr ≠ v ∧ (nbr ∈ neighbours adj v ∨ v ∈ neighbours adj nbr) ∧
         welsh_powell adj !! nbr = Some c'.
Proof.
  intros Hv Hc'.
  destruct (lower_class_neighbour adj v c c' Hv Hc') as (nbr & Hn & Hnc).
  apply elem_of_difference in Hn as [Hn Hne]. rewrite elem_of_singleton in Hne.
  exists nbr. split; [done|]. split; [|done].
  by apply elem_of_neighbours_full_of.
Qed.

Lemma welsh_powell_greedy_witness :
  ∃ nbr, nbr ≠ "Physics" ∧
         (nbr ∈ neighbours campus "Physics" ∨ "Physics" ∈ neighbours campus nbr) ∧
         welsh_powell campus !! nbr = Some 2.
Proof.
  apply (welsh_powell_greedy campus "Physics" 3 2); [by vm_compute | lia].
Defined.

(** X2. A colour is at least 1 and at most one more than the number of
    other vertices its vertex is adjacent to in the symmetrised graph. *)
Theorem welsh_powell_degree_bound (adj : gmap string (gset string)) (v : string) (c : Z) :
  welsh_powell adj !! v = Some c →
  1 ≤ c ≤ Z.of_nat (size (neighbours (full_of adj) v ∖ {[v]})) + 1.
Proof.
  intros Hv. destruct (welsh_powell_inv adj) as (k & _ & Hinv).
  pose proof (inv_range _ _ _ _ Hinv v c Hv) as Hc. split; [lia|].
  pose proof (size_ge_values (neighbours (full_of adj) v ∖ {[v]})
                (λ x, Z.to_nat (default 0 (welsh_powell adj !! x)))
                (Z.to_nat (c - 1))) as Hsize.
  cut (Z.to_nat (c - 1) ≤ size (neighbours (full_of adj) v ∖ {[v]}))%nat; [lia|].
  apply Hsize. intros i Hi.
  destruct (lower_class_neighbour adj v c (Z.of_nat i) Hv) as (nbr & Hn & Hnc);
    [lia|].
  exists nbr. split; [done|]. rewrite Hnc. simpl. lia.
Qed.

Lemma welsh_powell_degree_bound_witness :
  1 ≤ 1 ≤ Z.of_nat (size (neighbours (full_of campus) "Biology" ∖ {["Biology"]})) + 1.
Proof.
  apply (welsh_powell_degree_bound campus "Biology" 1). by vm_compute.
Defined.

(** The number of colours handed out is at most the number of vertices. *)
Lemma welsh_powell_colour_count adj :
  ∃ k, 0 ≤ k ≤ Z.of_nat (size (vertices adj)) ∧
       colouring_inv (full_of adj) (order_of adj) k (welsh_powell adj).
Proof.
  destruct (welsh_powell_inv adj) as (k & Hk & Hinv).
  exists k. split; [|done]. split; [done|].
  cut (Z.to_nat k ≤ size (vertices adj))%nat; [lia|].
  apply (size_ge_values _ (λ x, Z.to_nat (default 0 (welsh_powell adj !! x)))).
  intros i Hi. destruct (inv_used _ _ _ _ Hinv (Z.of_nat i)) as [x Hx]; [lia|].
  exists x. split.
  - apply welsh_powell_coloured. by eexists.
  - rewrite Hx. simpl. lia.
Qed.

(** X3. No colour exceeds the number of vertices: there are never more
    slots than exams. *)
Theorem welsh_powell_colours_le_vertices (adj : gmap string (gset string))
    (v : string) (c : Z) :
  welsh_powell adj !! v = Some c → 1 ≤ c ≤ Z.of_nat (size (vertices adj)).
Proof.
  intros Hv. destruct (welsh_powell_colour_count adj) as (k & Hk & Hinv).
  pose proof (inv_range _ _ _ _ Hinv v c Hv) as Hc. lia.
Qed.

Lemma welsh_powell_colours_le_vertices_witness :
  1 ≤ 3 ≤ Z.of_nat (size (vertices lopsided)).
Proof.
  apply (welsh_powell_colours_le_vertices lopsided "C" 3). by vm_compute.
Defined.

(** X4. A vertex that is adjacent to no other vertex is coloured 1. *)
Theorem welsh_powell_isolated (adj : gmap string (gset string)) (v : string) :
  v ∈ vertices adj →
  (∀ u, u ≠ v → (u ∉ neighbours adj v) ∧ (v ∉ neighbours adj u)) →
  welsh_powell adj !! v = Some 1.
Proof.
  intros Hv Hiso. apply welsh_powell_coloured in Hv as [c Hc].
  destruct (welsh_powell_inv adj) as (k & _ & Hinv).
  pose proof (inv_range _ _ _ _ Hinv v c Hc) as Hrange.
  destruct (decide (c = 1)) as [->|Hne]; [done|].
  destruct (lower_class_neighbour adj v c 1 Hc) as (nbr & Hn & _); [lia|].
  apply elem_of_difference in Hn as [Hn Hnbr]. rewrite elem_of_singleton in Hnbr.
  apply elem_of_neighbours_full_of in Hn. destruct (Hiso nbr Hnbr). tauto.
Qed.

Lemma isolated_Forall (adj : gmap string (gset string)) (v : string) :
  neighbours adj v ⊆ {[v]} → map_Forall (λ u s, u ≠ v → v ∉ s) adj →
  ∀ u, u ≠ v → (u ∉ neighbours adj v) ∧ (v ∉ neighbours adj u).
Proof.
  intros Hsub Hall u Hu. split; [set_solver|].
  unfold neighbours. destruct (adj !! u) as [s|] eqn:Hs; [|set_solver].
  by apply (Hall u s).
Qed.

Lemma welsh_powell_isolated_witness : welsh_powell campus !! "Biology" = Some 1.
Proof.
  apply (welsh_powell_isolated campus "Biology"); [by_evaluation|].
  apply isolated_Forall; by_evaluation.
Defined.

(** * Further properties of the conflict graph builder *)

Lemma paired_positions courses x y :
  paired courses x y ↔
  ∃ i j, i ≠ j ∧ courses !! i = Some x ∧ courses !! j = Some y.
Proof.
  unfold paired, hit. split.
  - intros (i & j & Hij & a & b & Ha & Hb & [[-> ->]|[-> ->]]).
    + exists i, j. split; [lia | done].
    + exists j, i. split; [lia | done].
  - intros (i & j & Hij & Hx & Hy).
    destruct (decide (i < j)%nat).
    + exists i, j. split; [done|]. exists x, y. tauto.
    + exists j, i. split; [lia|]. exists y, x. tauto.
Qed.

Lemma paired_distinct courses x y :
  x ≠ y → x ∈ courses → y ∈ courses → paired courses x y.
Proof.
  intros Hxy [i Hi]%list_elem_of_lookup [j Hj]%list_elem_of_lookup.
  apply paired_positions. exists i, j. split; [|done].
  intros ->. congruence.
Qed.

Lemma paired_elem_of courses x y : paired courses x y → x ∈ courses ∧ y ∈ courses.
Proof.
  intros (i & j & _ & Hx & Hy)%paired_positions.
  split; by eapply list_elem_of_lookup_2.
Qed.

(** X5. Two exams are neighbours in the built graph exactly when some
    student's list holds them at two different positions. *)
Theorem build_conflicts_edge_iff (enrollments : gmap string (list string)) (x y : string) :
  y ∈ neighbours (build_conflicts_from_enrollments enrollments) x ↔
  ∃ student courses i j,
    enrollments !! student = Some courses ∧ i ≠ j ∧
    courses !! i = Some x ∧ courses !! j = Some y.
Proof.
  rewrite elem_of_neighbours_build_conflicts. split.
  - intros (student & courses & Hs & (i & j & H)%paired_positions).
    by exists student, courses, i, j.
  - intros (student & courses & i & j & Hs & H).
    exists student, courses. split; [done|]. apply paired_positions. eauto.
Qed.

(** X6. The keys of the built graph are exactly the exams that some student
    lists, so an exam taken alone is an isolated vertex, and an empty
    enrollment mapping gives the empty graph. *)
Theorem build_conflicts_vertex_iff (enrollments : gmap string (list string)) :
  (∀ e, e ∈ dom (build_conflicts_from_enrollments enrollments) ↔
        ∃ student courses, enrollments !! student = Some courses ∧ e ∈ courses) ∧
  (∀ student e, enrollments !! student = Some [e] →
     (∀ other courses, enrollments !! other = Some courses → other ≠ student →
        e ∉ courses) →
     build_conflicts_from_enrollments enrollments !! e = Some ∅) ∧
  (enrollments = ∅ → build_conflicts_from_enrollments enrollments = ∅).
Proof.
  split; [apply elem_of_dom_build_conflicts|]. split.
  - intros student e Hs Halone.
    assert (e ∈ dom (build_conflicts_from_enrollments enrollments)) as [s Hes]%elem_of_dom.
    { apply elem_of_dom_build_conflicts. exists student, [e].
      split; [done|]. apply list_elem_of_singleton. done. }
    rewrite Hes. f_equal. apply set_eq. intros y. split; [|set_solver].
    intros Hy.
    assert (y ∈ neighbours (build_conflicts_from_enrollments enrollments) e) as Hn
      by (unfold neighbours; by rewrite Hes).
    apply elem_of_neighbours_build_conflicts in Hn
      as (other & courses & Ho & Hp).
    destruct (decide (other = student)) as [->|Hne].
    + rewrite Hs in Ho. injection Ho as <-.
      apply paired_positions in Hp as (i & j & Hij & Hi & Hj).
      apply lookup_lt_Some in Hi, Hj. simpl in *. lia.
    + apply paired_elem_of in Hp as [He _]. by destruct (Halone other courses).
  - intros ->. apply map_eq. intros e. rewrite lookup_empty.
    apply not_elem_of_dom. rewrite elem_of_dom_build_conflicts.
    intros (student & courses & Hs & _). by rewrite lookup_empty in Hs.
Qed.

(** X7. The builder raises neither [IndexError] nor [KeyError], and the
    graph it returns is symmetric and closed: every listed neighbour is
    itself a key. *)
Theorem build_conflicts_well_formed (enrollments : gmap string (list string)) :
  let conflicts := build_conflicts_from_enrollments enrollments in
  build_conflicts_checked enrollments = Some conflicts ∧
  symmetric conflicts ∧
  ∀ x y, y ∈ neighbours conflicts x → x ∈ dom conflicts ∧ y ∈ dom conflicts.
Proof.
  intros conflicts. unfold conflicts.
  split; [apply build_conflicts_checked_returns|].
  split; [apply build_conflicts_symmetric|].
  intros x y (student & courses & Hs & Hp)%elem_of_neighbours_build_conflicts.
  apply paired_elem_of in Hp as [Hx Hy].
  split; apply elem_of_dom_build_conflicts; eauto.
Qed.

(** X8. The built graph has no self-loop exactly when no student's list
    repeats an exam. *)
Theorem build_conflicts_irreflexive_iff (enrollments : gmap string (list string)) :
  irreflexive (build_conflicts_from_enrollments enrollments) ↔
  map_Forall (λ _ courses, NoDup courses) enrollments.
Proof.
  split; [|apply build_conflicts_irreflexive].
  intros Hirr student courses Hs. simpl. apply NoDup_alt. intros i j e Hi Hj.
  destruct (decide (i = j)) as [|Hij]; [done|]. exfalso.
  apply (Hirr e). apply elem_of_neighbours_build_conflicts.
  exists student, courses. split; [done|]. apply paired_positions. eauto.
Qed.

(** X9. Colouring the built graph: every listed exam gets a slot, and two
    different exams on one student's list never get the same slot, whether
    or not lists repeat exams. *)
Theorem enrolled_exams_separated (enrollments : gmap string (list string))
    (student : string) (courses : list string) :
  enrollments !! student = Some courses →
  let coloring := welsh_powell (build_conflicts_from_enrollments enrollments) in
  (∀ x, x ∈ courses → is_Some (coloring !! x)) ∧
  (∀ x y, x ∈ courses → y ∈ courses → x ≠ y →
     ∃ cx cy, coloring !! x = Some cx ∧ coloring !! y = Some cy ∧ cx ≠ cy).
Proof.
  intros Hs coloring. unfold coloring. split.
  - intros x Hx. apply welsh_powell_coloured, elem_of_vertices. left.
    apply elem_of_dom_build_conflicts. eauto.
  - intros x y Hx Hy Hxy. apply welsh_powell_separates; [done|]. left.
    apply elem_of_neighbours_build_conflicts. exists student, courses.
    split; [done|]. by apply paired_distinct.
Qed.

Lemma enrolled_exams_separated_witness :
  let coloring := welsh_powell (build_conflicts_from_enrollments round_trip) in
  (∀ x, x ∈ ["Physics"; "Chemistry"] → is_Some (coloring !! x)) ∧
  (∀ x y, x ∈ ["Physics"; "Chemistry"] → y ∈ ["Physics"; "Chemistry"] → x ≠ y →
     ∃ cx cy, coloring !! x = Some cx ∧ coloring !! y = Some cy ∧ cx ≠ cy).
Proof.
  apply (enrolled_exams_separated round_trip "S2"). by vm_compute.
Defined.

(** * Further properties of the schedule mapper *)

Lemma schedule_row_of_exam coloring h d x c :
  coloring !! x = Some c →
  ∃ r, r ∈ schedule_from_coloring coloring h d ∧ Exam r = x ∧ Slot r = c ∧
       duration r = d ∧ start r = h + (c - 1) * d.
Proof.
  intros Hx.
  assert ((x, c) ∈ (λ r, (Exam r, Slot r)) <$> schedule_from_coloring coloring h d)
    as (r & [= -> ->] & Hr)%list_elem_of_fmap.
  { rewrite schedule_items, merge_sort_Permutation. by apply elem_of_map_to_list. }
  exists r. split; [done|].
  pose proof (schedule_rows coloring h d) as Hrows. rewrite Forall_forall in Hrows.
  destruct (Hrows r Hr). done.
Qed.

(** X10. With a positive [slot_duration] the windows of different slots
    follow one another without overlap, and rows of one slot share their
    window. *)
Theorem schedule_windows_disjoint (coloring : gmap string Z)
    (slot_start_hour slot_duration : Z) (r1 r2 : row) :
  0 < slot_duration →
  r1 ∈ schedule_from_coloring coloring slot_start_hour slot_duration →
  r2 ∈ schedule_from_coloring coloring slot_start_hour slot_duration →
  (Slot r1 < Slot r2 → start r1 + duration r1 ≤ start r2) ∧
  (Slot r1 = Slot r2 → start r1 = start r2).
Proof.
  intros Hd H1 H2.
  pose proof (schedule_rows coloring slot_start_hour slot_duration) as Hrows.
  rewrite Forall_forall in Hrows.
  destruct (Hrows r1 H1) as [-> ->], (Hrows r2 H2) as [_ ->].
  split; intros Hslot; [nia | by rewrite Hslot].
Qed.

Lemma schedule_windows_disjoint_witness :
  (Slot (make_row 9 2 ("A", 1)) < Slot (make_row 9 2 ("B", 2)) →
   start (make_row 9 2 ("A", 1)) + duration (make_row 9 2 ("A", 1))
   ≤ start (make_row 9 2 ("B", 2))) ∧
  (Slot (make_row 9 2 ("A", 1)) = Slot (make_row 9 2 ("B", 2)) →
   start (make_row 9 2 ("A", 1)) = start (make_row 9 2 ("B", 2))).
Proof.
  apply (schedule_windows_disjoint two_slots 9 2); [lia | |]; by_evaluation.
Defined.

(** X11. The rows do not depend on the order in which the items of the
    colouring are walked: the sort key [(slot, exam)] leaves no ties. *)
Theorem schedule_walk_independent (coloring : gmap string Z)
    (cenum1 cenum2 : list (string * Z)) (slot_start_hour slot_duration : Z) :
  cenum1 ≡ₚ map_to_list coloring → cenum2 ≡ₚ map_to_list coloring →
  schedule_enum cenum1 slot_start_hour slot_duration =
  schedule_enum cenum2 slot_start_hour slot_duration.
Proof.
  intros H1 H2. unfold schedule_enum. f_equal.
  apply (Sorted_unique item_le).
  - apply Sorted_merge_sort. apply _.
  - apply Sorted_merge_sort. apply _.
  - by rewrite !merge_sort_Permutation, H1, H2.
Qed.

Lemma schedule_walk_independent_witness :
  schedule_enum [("A", 1); ("B", 2)] 9 2 = schedule_enum [("B", 2); ("A", 1)] 9 2.
Proof.
  apply (schedule_walk_independent two_slots); by_evaluation.
Defined.

(** X12. From enrollments to time windows: with a positive [slot_duration],
    two different exams on one student's list get windows that do not
    overlap. *)
Theorem student_windows_disjoint (enrollments : gmap string (list string))
    (student : string) (courses : list string) (slot_start_hour slot_duration : Z)
    (x y : string) :
  0 < slot_duration → enrollments !! student = Some courses →
  x ∈ courses → y ∈ courses → x ≠ y →
  let rows := schedule_from_coloring
                (welsh_powell (build_conflicts_from_enrollments enrollments))
                slot_start_hour slot_duration in
  ∃ rx ry, rx ∈ rows ∧ ry ∈ rows ∧ Exam rx = x ∧ Exam ry = y ∧
           (start rx + duration rx ≤ start ry ∨ start ry + duration ry ≤ start rx).
Proof.
  intros Hd Hs Hx Hy Hxy rows. unfold rows.
  destruct (welsh_powell_separates (build_conflicts_from_enrollments enrollments) x y)
    as (cx & cy & Hcx & Hcy & Hne); [done| |].
  { left. apply elem_of_neighbours_build_conflicts. exists student, courses.
    split; [done|]. by apply paired_distinct. }
  destruct (schedule_row_of_exam _ slot_start_hour slot_duration x cx Hcx)
    as (rx & Hrx & Hex & _ & Hdx & Hsx).
  destruct (schedule_row_of_exam _ slot_start_hour slot_duration y cy Hcy)
    as (ry & Hry & Hey & _ & Hdy & Hsy).
  exists rx, ry. repeat (split; [done|]).
  rewrite Hdx, Hdy, Hsx, Hsy. nia.
Qed.

Lemma student_windows_disjoint_witness :
  let rows := schedule_from_coloring
                (welsh_powell (build_conflicts_from_enrollments round_trip)) 9 2 in
  ∃ rx ry, rx ∈ rows ∧ ry ∈ rows ∧ Exam rx = "Math" ∧ Exam ry = "Physics" ∧
           (start rx + duration rx ≤ start ry ∨ start ry + duration ry ≤ start rx).
Proof.
  apply (student_windows_disjoint round_trip "S1" ["Math"; "Physics"]);
    [lia | by vm_compute | by_evaluation | by_evaluation | done].
Defined.

(** X13. The schedule of a colouring computed by [welsh_powell] fits in as
    many consecutive windows as the graph has vertices: with a non-negative
    [slot_duration] no window starts before [slot_start_hour], and none
    ends after [slot_start_hour + |V| * slot_duration]. *)
Theorem schedule_span (adj : gmap string (gset string))
    (slot_start_hour slot_duration : Z) (r : row) :
  0 ≤ slot_duration →
  r ∈ schedule_from_coloring (welsh_powell adj) slot_start_hour slot_duration →
  slot_start_hour ≤ start r ∧
  start r + duration r ≤ slot_start_hour + Z.of_nat (size (vertices adj)) * slot_duration.
Proof.
  intros Hd Hr.
  pose proof (schedule_rows (welsh_powell adj) slot_start_hour slot_duration) as Hrows.
  rewrite Forall_forall in Hrows. destruct (Hrows r Hr) as [-> ->].
  assert ((Exam r, Slot r) ∈ map_to_list (welsh_powell adj)) as Hc.
  { rewrite <- (merge_sort_Permutation item_le),
      <- (schedule_items _ slot_start_hour slot_duration).
    apply list_elem_of_fmap. by exists r. }
  apply elem_of_map_to_list in Hc.
  destruct (welsh_powell_colour_count adj) as (k & Hk & Hinv).
  pose proof (inv_range _ _ _ _ Hinv _ _ Hc). nia.
Qed.

Lemma schedule_span_witness :
  9 ≤ start (make_row 9 2 ("C", 3)) ∧
  start (make_row 9 2 ("C", 3)) + duration (make_row 9 2 ("C", 3))
  ≤ 9 + Z.of_nat (size (vertices lopsided)) * 2.
Proof.
  apply (schedule_span lopsided 9 2); [lia | by_evaluation].
Defined.

(** * Properties of the builder from a table *)

Lemma elem_of_dropna df sid e : (sid, e) ∈ dropna df ↔ sits df sid e.
Proof.
  unfold dropna, sits. rewrite list_elem_of_omap. split.
  - intros ([[s|] [x|]] & Hr & Heq); simplify_eq/=. done.
  - intros Hr. eexists. split; [exact Hr | done].
Qed.

Lemma elem_of_unique l x : x ∈ unique l ↔ x ∈ l.
Proof.
  induction l as [|y l IH]; simpl; [done|].
  rewrite !elem_of_cons, list_elem_of_filter, IH.
  destruct (decide (x = y)); naive_solver.
Qed.

Lemma NoDup_unique l : NoDup (unique l).
Proof.
  induction l as [|y l IH]; simpl; [constructor|].
  constructor; [|by apply NoDup_filter].
  rewrite list_elem_of_filter. naive_solver.
Qed.

Lemma elem_of_group_exams rows sid e : e ∈ group_exams rows sid ↔ (sid, e) ∈ rows.
Proof.
  unfold group_exams. rewrite list_elem_of_fmap. split.
  - intros ([s x] & -> & [Hs Hin]%list_elem_of_filter). simpl in *. by subst.
  - intros Hin. exists (sid, e). split; [done|]. by apply list_elem_of_filter.
Qed.

Lemma lookup_foldl_insert {A} (f : string → A) (ks : list string)
    (m : gmap string A) (k : string) :
  foldl (λ m k, <[k := f k]> m) m ks !! k =
  if decide (k ∈ ks) then Some (f k) else m !! k.
Proof.
  revert m. induction ks as [|k' ks IH]; intros m; simpl.
  - destruct (decide (k ∈ [])) as [H|H]; [by apply elem_of_nil in H | done].
  - rewrite IH. repeat case_decide; try done.
    + exfalso. set_solver.
    + rewrite lookup_insert. case_decide; [by subst|]. set_solver.
    + rewrite lookup_insert_ne; [done|]. set_solver.
Qed.

Lemma lookup_csv_enrollments rows sid :
  csv_enrollments rows !! sid =
  if decide (sid ∈ rows.*1) then Some (unique (group_exams rows sid)) else None.
Proof.
  unfold csv_enrollments, groupby_keys.
  rewrite (lookup_foldl_insert (λ sid, unique (group_exams rows sid))), lookup_empty.
  destruct (decide (sid ∈ rows.*1)) as [Hin|Hin];
    case_decide as Hk; try done; exfalso;
    rewrite merge_sort_Permutation, elem_of_elements, elem_of_list_to_set in Hk;
    done.
Qed.

(** What the grouped enrollments hold: one duplicate-free list per
    identifier, with the exams of its lines. *)
Lemma csv_enrollments_spec rows sid courses :
  csv_enrollments rows !! sid = Some courses →
  NoDup courses ∧ ∀ e, e ∈ courses ↔ (sid, e) ∈ rows.
Proof.
  rewrite lookup_csv_enrollments. case_decide; [|done]. intros [= <-].
  split; [apply NoDup_unique|]. intros e.
  by rewrite elem_of_unique, elem_of_group_exams.
Qed.

Lemma csv_enrollments_lookup rows sid e :
  (sid, e) ∈ rows →
  ∃ courses, csv_enrollments rows !! sid = Some courses ∧ e ∈ courses.
Proof.
  intros Hin. exists (unique (group_exams rows sid)). split.
  - rewrite lookup_csv_enrollments. case_decide as Hk; [done|].
    exfalso. apply Hk. apply list_elem_of_fmap. by exists (sid, e).
  - by rewrite elem_of_unique, elem_of_group_exams.
Qed.

Lemma build_conflicts_from_csv_df_unfold df :
  build_conflicts_from_csv_df df =
  build_conflicts_from_enrollments (csv_enrollments (dropna df)).
Proof. destruct df; [by vm_compute | done]. Qed.

Lemma elem_of_neighbours_csv df x y :
  y ∈ neighbours (build_conflicts_from_csv_df df) x ↔
  x ≠ y ∧ ∃ sid, sits df sid x ∧ sits df sid y.
Proof.
  rewrite build_conflicts_from_csv_df_unfold, elem_of_neighbours_build_conflicts.
  split.
  - intros (sid & courses & Hs & Hp).
    destruct (csv_enrollments_spec _ _ _ Hs) as [Hnd Hin].
    pose proof (paired_elem_of _ _ _ Hp) as [Hx Hy].
    split.
    + intros ->. apply paired_positions in Hp as (i & j & Hij & Hi & Hj).
      apply Hij. by eapply NoDup_lookup.
    + exists sid. by rewrite <- !elem_of_dropna, <- !Hin.
  - intros (Hxy & sid & Hx%elem_of_dropna & Hy%elem_of_dropna).
    destruct (csv_enrollments_lookup _ _ _ Hx) as (courses & Hs & Hxc).
    exists sid, courses. split; [done|]. apply paired_distinct; [done..|].
    destruct (csv_enrollments_spec _ _ _ Hs) as [_ Hin]. by apply Hin.
Qed.

Lemma elem_of_dom_csv df e :
  e ∈ dom (build_conflicts_from_csv_df df) ↔ ∃ sid, sits df sid e.
Proof.
  rewrite build_conflicts_from_csv_df_unfold, elem_of_dom_build_conflicts. split.
  - intros (sid & courses & Hs & He). exists sid. apply elem_of_dropna.
    destruct (csv_enrollments_spec _ _ _ Hs) as [_ Hin]. by apply Hin.
  - intros (sid & He%elem_of_dropna).
    destruct (csv_enrollments_lookup _ _ _ He) as (courses & Hs & Hec). eauto.
Qed.

(** X14. Whatever the table, the graph built from it is a simple undirected
    graph: symmetric, without self-loops (a line that is repeated gives
    none), and with every neighbour among its keys. *)
Theorem csv_conflicts_simple (df : list csv_row) :
  let conflicts := build_conflicts_from_csv_df df in
  symmetric conflicts ∧ irreflexive conflicts ∧
  ∀ x y, y ∈ neighbours conflicts x → x ∈ dom conflicts ∧ y ∈ dom conflicts.
Proof.
  intros conflicts. unfold conflicts. split; [|split].
  - intros a b. rewrite !elem_of_neighbours_csv. naive_solver.
  - intros a. rewrite elem_of_neighbours_csv. naive_solver.
  - intros x y (_ & sid & Hx & Hy)%elem_of_neighbours_csv.
    rewrite !elem_of_dom_csv. eauto.
Qed.

(** X15. The graph built from a table: its keys are the exams of the lines
    that miss no cell, and two exams are neighbours exactly when they
    differ and some student has a complete line for each. *)
Theorem csv_conflicts_graph (df : list csv_row) :
  (∀ e, e ∈ dom (build_conflicts_from_csv_df df) ↔ ∃ sid, sits df sid e) ∧
  (∀ x y, y ∈ neighbours (build_conflicts_from_csv_df df) x ↔
          x ≠ y ∧ ∃ sid, sits df sid x ∧ sits df sid y).
Proof.
  split; [intros e; apply elem_of_dom_csv|].
  intros x y. apply elem_of_neighbours_csv.
Qed.

(** X16. Only the set of complete lines matters: lines with a missing
    cell, repeated lines and the order of the lines change nothing, and a
    table without a complete line gives the empty graph. *)
Theorem csv_conflicts_complete_lines (df1 df2 : list csv_row) :
  (∀ sid e, sits df1 sid e ↔ sits df2 sid e) →
  build_conflicts_from_csv_df df1 = build_conflicts_from_csv_df df2 ∧
  ((∀ sid e, ¬ sits df1 sid e) → build_conflicts_from_csv_df df1 = ∅).
Proof.
  intros Hsame. split.
  - apply map_eq_neighbours.
    + apply set_eq. intros e. rewrite !elem_of_dom_csv.
      by setoid_rewrite Hsame.
    + intros x. apply set_eq. intros y. rewrite !elem_of_neighbours_csv.
      by setoid_rewrite Hsame.
  - intros Hnone. apply map_eq. intros e. rewrite lookup_empty.
    apply not_elem_of_dom. rewrite elem_of_dom_csv. intros [sid Hs].
    by apply (Hnone sid e).
Qed.

Lemma sits_Forall (df1 df2 : list csv_row) :
  Forall (λ r, is_Some (student_id r) → is_Some (exam r) → r ∈ df2) df1 →
  Forall (λ r, is_Some (student_id r) → is_Some (exam r) → r ∈ df1) df2 →
  ∀ sid e, sits df1 sid e ↔ sits df2 sid e.
Proof.
  rewrite !Forall_forall. intros H1 H2 sid e. unfold sits.
  split; intros Hr; [apply (H1 _ Hr) | apply (H2 _ Hr)]; by eexists.
Qed.

Lemma csv_conflicts_complete_lines_witness :
  build_conflicts_from_csv_df upload =
  build_conflicts_from_csv_df
    [ {| student_id := Some "S1"; exam := Some "Physics" |};
      {| student_id := Some "S1"; exam := Some "Math" |};
      {| student_id := Some "S2"; exam := Some "Physics" |} ] ∧
  ((∀ sid e, ¬ sits upload sid e) → build_conflicts_from_csv_df upload = ∅).
Proof.
  apply (csv_conflicts_complete_lines upload). apply sits_Forall; by_evaluation.
Defined.

(** * Properties of the manual tab *)

Lemma sorted_pair_cases ex1 ex2 :
  ex1 ≠ ex2 →
  ∃ a b, sorted_pair ex1 ex2 = (a, b) ∧ String.le a b ∧ a ≠ b ∧
         ((a = ex1 ∧ b = ex2) ∨ (a = ex2 ∧ b = ex1)).
Proof.
  intros Hne. unfold sorted_pair. case_decide as Hle.
  - exists ex1, ex2. naive_solver.
  - exists ex2, ex1. destruct (total String.le ex1 ex2); naive_solver.
Qed.

Lemma session_inv_initial : session_inv initial_session.
Proof.
  split; simpl.
  - by_evaluation.
  - intros e He Hempty. subst. revert He. by_evaluation.
  - done.
  - intros a b H. set_solver.
Qed.

Lemma session_inv_click s s' : click s s' → session_inv s → session_inv s'.
Proof.
  intros Hclick [Hnd Hne Hini Hedges]. destruct Hclick as [new_exam s|ex1 ex2 s H1 H2|s].
  - unfold add_exam. case_decide as Hguard; [|by split].
    destruct Hguard as [Hnew Hfresh]. split; simpl.
    + apply NoDup_app. split; [done|]. split; [|apply NoDup_singleton].
      intros x Hx ->%list_elem_of_singleton. done.
    + intros e [He| ->%list_elem_of_singleton]%elem_of_app; [by apply Hne | done].
    + intros e He. apply elem_of_app. left. by apply Hini.
    + intros a b Hab. destruct (Hedges a b Hab) as (Ha & Hb & Hrest).
      rewrite !elem_of_app. tauto.
  - unfold add_conflict. case_decide as Hguard; [|by split].
    split; simpl; [done..|].
    intros a b [Hab|Hab%elem_of_singleton]%elem_of_union; [by apply Hedges|].
    destruct (sorted_pair_cases ex1 ex2 Hguard) as (a' & b' & Heq & Hle & Hneq & Hor).
    rewrite Heq in Hab. injection Hab as -> ->. naive_solver.
  - split; simpl; [done..|]. intros a b H. set_solver.
Qed.

Lemma session_inv_reachable s : rtc click initial_session s → session_inv s.
Proof.
  revert s. apply (rtc_ind_r session_inv initial_session).
  - apply session_inv_initial.
  - intros s s' _ Hclick Hinv. by eapply session_inv_click.
Qed.

Lemma dom_add_pairs (l : list (string * string)) m :
  dom (foldl (λ conflicts p, add_edge p.1 p.2 conflicts) m l) = dom m.
Proof.
  revert m. induction l as [|p l IH]; intros m; simpl; [done|].
  by rewrite IH, dom_add_edge.
Qed.

Lemma elem_of_neighbours_add_pairs (l : list (string * string)) m x y :
  (∀ a b, (a, b) ∈ l → a ∈ dom m ∧ b ∈ dom m) →
  y ∈ neighbours (foldl (λ conflicts p, add_edge p.1 p.2 conflicts) m l) x ↔
  y ∈ neighbours m x ∨ (x, y) ∈ l ∨ (y, x) ∈ l.
Proof.
  revert m. induction l as [|[a b] l IH]; intros m Hd; simpl.
  - rewrite !elem_of_nil. tauto.
  - destruct (Hd a b) as [Ha Hb]; [left|]. rewrite IH.
    + rewrite elem_of_neighbours_add_edge by done.
      rewrite !elem_of_cons. naive_solver.
    + intros a' b' Hin. rewrite dom_add_edge. apply Hd. by right.
Qed.

(** On a session that satisfies the invariant, "Run manually" finds every
    key it subscripts, and builds the graph of the recorded pairs. *)
Lemma manual_conflicts_spec s :
  session_inv s →
  ∃ conflicts, manual_conflicts s = Some conflicts ∧
    dom conflicts = list_to_set (manual_exams s) ∧
    ∀ x y, y ∈ neighbours conflicts x ↔
           (x, y) ∈ manual_edges s ∨ (y, x) ∈ manual_edges s.
Proof.
  intros [_ _ _ Hedges].
  exists (foldl (λ conflicts p, add_edge p.1 p.2 conflicts)
                (empty_sets (manual_exams s)) (elements (manual_edges s))).
  split; [|split].
  - unfold manual_conflicts.
    apply (foldl_checked_invariant (λ m, dom m = list_to_set (manual_exams s)));
      [apply dom_empty_sets|].
    intros m [a b] Hin%elem_of_elements Hd. rewrite dom_add_edge.
    split; [|done]. destruct (Hedges a b Hin) as (Ha & Hb & _).
    apply add_edge_checked_present; by rewrite Hd, elem_of_list_to_set.
  - by rewrite dom_add_pairs, dom_empty_sets.
  - intros x y. rewrite elem_of_neighbours_add_pairs.
    + rewrite neighbours_empty_sets, !elem_of_elements. set_solver.
    + intros a b Hin%elem_of_elements. destruct (Hedges a b Hin) as (Ha & Hb & _).
      by rewrite dom_empty_sets, !elem_of_list_to_set.
Qed.

(** X17. However the buttons of the manual tab are clicked, the list of
    exams stays free of duplicates and of empty names and keeps its three
    initial entries, and every recorded conflict is an ordered pair of two
    different exams of the list. *)
Theorem manual_session_invariant (s : session) :
  rtc click initial_session s →
  NoDup (manual_exams s) ∧ ("" ∉ manual_exams s) ∧
  (∀ e, e ∈ ["Math"; "Physics"; "Chemistry"] → e ∈ manual_exams s) ∧
  ∀ a b, (a, b) ∈ manual_edges s →
    a ∈ manual_exams s ∧ b ∈ manual_exams s ∧ a ≠ b ∧ String.le a b.
Proof.
  intros [Hnd Hne Hini Hedges]%session_inv_reachable.
  split; [done|]. split; [|split; [apply Hini | apply Hedges]].
  intros Hempty. by apply (Hne "" Hempty).
Qed.

Lemma manual_session_invariant_witness :
  let s := add_conflict "Physics" "Math" (add_exam "Biology" initial_session) in
  NoDup (manual_exams s) ∧ ("" ∉ manual_exams s) ∧
  (∀ e, e ∈ ["Math"; "Physics"; "Chemistry"] → e ∈ manual_exams s) ∧
  ∀ a b, (a, b) ∈ manual_edges s →
    a ∈ manual_exams s ∧ b ∈ manual_exams s ∧ a ≠ b ∧ String.le a b.
Proof.
  apply (manual_session_invariant
           (add_conflict "Physics" "Math" (add_exam "Biology" initial_session))).
  eapply rtc_l; [apply click_add|].
  apply rtc_once, click_add_conflict; by_evaluation.
Defined.

(** X18. However the buttons were clicked before, "Run manually" raises no
    [KeyError]: it builds a symmetric graph without self-loops on the listed
    exams and colours every listed exam, the two exams of each recorded
    conflict differently. *)
Theorem run_manually_succeeds (s : session) :
  rtc click initial_session s →
  ∃ conflicts coloring,
    manual_conflicts s = Some conflicts ∧ run_manually s = Some coloring ∧
    symmetric conflicts ∧ irreflexive conflicts ∧
    (∀ e, is_Some (coloring !! e) ↔ e ∈ manual_exams s) ∧
    ∀ a b, (a, b) ∈ manual_edges s →
      ∃ ca cb, coloring !! a = Some ca ∧ coloring !! b = Some cb ∧ ca ≠ cb.
Proof.
  intros Hinv%session_inv_reachable.
  destruct (manual_conflicts_spec s Hinv) as (conflicts & Hc & Hdom & Hnb).
  exists conflicts, (welsh_powell conflicts).
  split; [done|]. split.
  { unfold run_manually. rewrite Hc. simpl. apply welsh_powell_checked_returns. }
  split; [|split; [|split]].
  - intros a b. rewrite !Hnb. tauto.
  - intros a. rewrite Hnb. intros [H|H]; by destruct (inv_edges s Hinv a a H) as (_ & _ & ? & _).
  - intros e. rewrite welsh_powell_coloured, elem_of_vertices, Hdom,
      elem_of_list_to_set.
    split; [|by left]. intros [He|[v Hv]]; [done|].
    apply Hnb in Hv.
    destruct Hv as [H|H]; destruct (inv_edges s Hinv _ _ H) as (? & ? & _); done.
  - intros a b Hab. apply welsh_powell_separates.
    + by destruct (inv_edges s Hinv a b Hab) as (_ & _ & ? & _).
    + left. apply Hnb. by left.
Qed.

Lemma run_manually_succeeds_witness :
  let s := add_conflict "Physics" "Math" (add_exam "Biology" initial_session) in
  ∃ conflicts coloring,
    manual_conflicts s = Some conflicts ∧ run_manually s = Some coloring ∧
    symmetric conflicts ∧ irreflexive conflicts ∧
    (∀ e, is_Some (coloring !! e) ↔ e ∈ manual_exams s) ∧
    ∀ a b, (a, b) ∈ manual_edges s →
      ∃ ca cb, coloring !! a = Some ca ∧ coloring !! b = Some cb ∧ ca ≠ cb.
Proof.
  apply (run_manually_succeeds
           (add_conflict "Physics" "Math" (add_exam "Biology" initial_session))).
  eapply rtc_l; [apply click_add|].
  apply rtc_once, click_add_conflict; by_evaluation.
Defined.

(** * Properties of the lookups of [draw_conflict_graph] *)

Lemma elem_of_add_ends a (ns : list string) (G : gset string) x :
  a ∈ G → x ∈ foldl (λ G b, G ∪ {[a]} ∪ {[b]}) G ns ↔ x ∈ G ∨ x ∈ ns.
Proof.
  revert G. induction ns as [|b ns IH]; intros G Ha; simpl.
  - rewrite elem_of_nil. tauto.
  - rewrite IH by set_solver. rewrite elem_of_cons. set_solver.
Qed.

Lemma elem_of_add_ends_items (items : list (string * list string)) (G : gset string) x :
  (∀ v, v ∈ items.*1 → v ∈ G) →
  x ∈ foldl (λ G p, foldl (λ G b, G ∪ {[p.1]} ∪ {[b]}) G p.2) G items ↔
  x ∈ G ∨ ∃ v, edge_in items v x.
Proof.
  revert G. induction items as [|p items IH]; intros G Hk; simpl.
  - split; [by left|]. intros [?|[v H]]; [done|]. by apply edge_in_nil in H.
  - rewrite IH.
    + rewrite elem_of_add_ends by (apply Hk; left).
      setoid_rewrite edge_in_cons. naive_solver.
    + intros v Hv. apply elem_of_add_ends; [apply Hk; left|].
      left. apply Hk. by right.
Qed.

(** The nodes that are drawn are the vertices that [welsh_powell] colours. *)
Lemma graph_nodes_vertices items : graph_nodes items = collect_vertices items.
Proof.
  apply set_eq. intros x. unfold graph_nodes.
  assert (∀ v, v ∈ foldl (λ G n, G ∪ {[n]}) (∅ : gset string) items.*1 ↔ v ∈ items.*1)
    as Hkeys.
  { intros v. rewrite elem_of_add_all. set_solver. }
  rewrite elem_of_add_ends_items by (intros v; apply Hkeys).
  by rewrite Hkeys, elem_of_collect_vertices.
Qed.

Lemma foldl_max_init (cs : list Z) (c0 : Z) : c0 ≤ foldl Z.max c0 cs.
Proof.
  revert c0. induction cs as [|c1 cs IH]; intros c0; simpl; [done|].
  etrans; [|apply IH]. lia.
Qed.

Lemma foldl_max_ge (cs : list Z) (c0 c : Z) :
  c ∈ c0 :: cs → c ≤ foldl Z.max c0 cs.
Proof.
  intros [->|Hin]%elem_of_cons; [apply foldl_max_init|].
  revert c0. induction cs as [|c1 cs IH]; intros c0; simpl;
    [by apply elem_of_nil in Hin|].
  apply elem_of_cons in Hin as [->|Hin]; [|by apply IH].
  etrans; [|apply foldl_max_init]. lia.
Qed.

Lemma max_colour_ge coloring n c :
  coloring !! n = Some c → ∃ maxc, max_colour coloring = Some maxc ∧ c ≤ maxc.
Proof.
  intros Hc. unfold max_colour.
  assert (c ∈ (map_to_list coloring).*2) as Hin.
  { apply list_elem_of_fmap. exists (n, c). by rewrite elem_of_map_to_list. }
  destruct ((map_to_list coloring).*2) as [|c0 cs]; [by apply elem_of_nil in Hin|].
  eexists. split; [done|]. by apply foldl_max_ge.
Qed.

(** X19. The labels of line 94 can be built exactly when every drawn node
    has a colour; one node without a colour raises [KeyError]. *)
Theorem draw_labels_iff (conflicts : gmap string (gset string))
    (coloring : gmap string Z) :
  is_Some (draw_labels (elements (graph_nodes (adj_items conflicts))) coloring) ↔
  ∀ n, n ∈ dom conflicts ∨ (∃ v, n ∈ neighbours conflicts v) → is_Some (coloring !! n).
Proof.
  unfold draw_labels. rewrite mapM_is_Some, Forall_forall.
  assert (∀ n, n ∈ elements (graph_nodes (adj_items conflicts)) ↔
               n ∈ dom conflicts ∨ (∃ v, n ∈ neighbours conflicts v)) as Hnodes.
  { intros n. rewrite elem_of_elements, graph_nodes_vertices.
    apply elem_of_vertices. }
  split; intros H n Hn.
  - apply Hnodes in Hn. specialize (H n Hn). simpl in H.
    unfold node_label in H. destruct (coloring !! n); [by eexists|].
    by destruct H.
  - apply Hnodes in Hn. destruct (H n Hn) as [c Hc]. simpl.
    unfold node_label. rewrite Hc. by eexists.
Qed.

(** X20. Drawing a graph with the colouring [welsh_powell] gives for it
    raises no [KeyError]: every node has a label, and when the graph is not
    empty every argument handed to the palette lies in [0, maxc). *)
Theorem draw_after_welsh_powell (conflicts : gmap string (gset string)) :
  let coloring := welsh_powell conflicts in
  let nodes := elements (graph_nodes (adj_items conflicts)) in
  is_Some (draw_labels nodes coloring) ∧
  (coloring ≠ ∅ →
   ∃ maxc indices, max_colour coloring = Some maxc ∧
                   palette_indices nodes coloring = Some indices ∧
                   Forall (λ i, 0 ≤ i < maxc) indices).
Proof.
  intros coloring nodes.
  assert (∀ n, n ∈ nodes → is_Some (coloring !! n)) as Hnodes.
  { intros n Hn%elem_of_elements. rewrite graph_nodes_vertices in Hn.
    by apply welsh_powell_coloured. }
  split.
  - unfold draw_labels. apply mapM_is_Some, Forall_forall. intros n Hn. simpl.
    destruct (Hnodes n Hn) as [c Hc]. unfold node_label. by rewrite Hc.
  - intros Hne. apply map_choose in Hne as (n0 & c0 & H0).
    destruct (max_colour_ge coloring n0 c0 H0) as (maxc & Hmax & _).
    assert (is_Some (palette_indices nodes coloring)) as [indices Hidx].
    { unfold palette_indices. apply mapM_is_Some, Forall_forall. intros n Hn. simpl.
      destruct (Hnodes n Hn) as [c Hc]. by rewrite Hc. }
    exists maxc, indices. split; [done|]. split; [done|].
    unfold palette_indices in Hidx. apply mapM_Some in Hidx.
    apply Forall_forall. intros i Hi.
    apply list_elem_of_lookup in Hi as [j Hj].
    destruct (Forall2_lookup_r _ _ _ _ _ Hidx Hj) as (n & Hn & Hni).
    destruct (coloring !! n) as [c|] eqn:Hc; simplify_eq/=.
    destruct (max_colour_ge coloring n c Hc) as (maxc' & Hmax' & Hle).
    destruct (welsh_powell_inv conflicts) as (k & _ & Hinv).
    pose proof (inv_range _ _ _ _ Hinv n c Hc).
    unfold coloring in *. rewrite Hmax in Hmax'. injection Hmax' as <-. lia.
Qed.

(** * Composition with [welsh_powell] *)

(** X21. On a graph that is already symmetric and lists no neighbour
    without an entry, as every builder returns it, the adjacency [full]
    that [welsh_powell] works on is the input itself. *)
Theorem full_of_symmetric_closed (adj : gmap string (gset string)) :
  symmetric adj →
  (∀ x y, y ∈ neighbours adj x → y ∈ dom adj) →
  full_of adj = adj ∧ vertices adj = dom adj.
Proof.
  intros Hsym Hclosed.
  assert (vertices adj = dom adj) as Hv.
  { apply set_eq. intros x. rewrite elem_of_vertices. split; [|by left].
    intros [Hx|[v Hx]]; [done | by eapply Hclosed]. }
  split; [|done]. apply map_eq_neighbours.
  - by rewrite dom_full_of.
  - intros x. apply set_eq. intros y. rewrite elem_of_neighbours_full_of.
    split; [|by left]. intros [Hy|Hy]; [done | by apply Hsym].
Qed.

Lemma closed_Forall (adj : gmap string (gset string)) :
  map_Forall (λ _ s, set_Forall (λ y, y ∈ dom adj) s) adj →
  ∀ x y, y ∈ neighbours adj x → y ∈ dom adj.
Proof.
  intros H x y. unfold neighbours.
  destruct (adj !! x) as [s|] eqn:Hs; [|set_solver].
  intros Hy. by apply (H x s Hs y).
Qed.

Lemma full_of_symmetric_closed_witness :
  full_of campus = campus ∧ vertices campus = dom campus.
Proof.
  apply (full_of_symmetric_closed campus); [by_evaluation|].
  apply closed_Forall. by_evaluation.
Defined.

(** X22. From an uploaded table to slots: two different exams for which one
    student has complete lines are both coloured, with different colours. *)
Theorem csv_students_separated (df : list csv_row) (sid x y : string) :
  sits df sid x → sits df sid y → x ≠ y →
  ∃ cx cy, welsh_powell (build_conflicts_from_csv_df df) !! x = Some cx ∧
           welsh_powell (build_conflicts_from_csv_df df) !! y = Some cy ∧
           cx ≠ cy.
Proof.
  intros Hx Hy Hxy. apply welsh_powell_separates; [done|]. left.
  apply elem_of_neighbours_csv. split; [done|]. by exists sid.
Qed.

Lemma csv_students_separated_witness :
  ∃ cx cy, welsh_powell (build_conflicts_from_csv_df upload) !! "Math" = Some cx ∧
           welsh_powell (build_conflicts_from_csv_df upload) !! "Physics" = Some cy ∧
           cx ≠ cy.
Proof.
  apply (csv_students_separated upload "S1"); [unfold sits.. | done]; by_evaluation.
Defined.
